(** * bamnostic.utils: virtual offsets, the LRU dictionary, CIGAR and MD helpers

    A shallow embedding of [bamnostic/utils.py].  Python integers are
    unbounded, so they are modelled by [Z]; Python strings by [string];
    raised exceptions by the error side of [result]. *)

From Stdlib Require Import ZArith Lia Ascii String DecimalString.
From stdpp Require Import base decidable option list strings.

Local Open Scope string_scope.
Local Open Scope list_scope.
Local Open Scope Z_scope.

(** ** Python exceptions and results *)

(** The exception classes the modelled functions can raise, each with the
    argument it is raised with. *)
Inductive exn : Type :=
| ValueError (msg : string)
| KeyError (key : string)
| TypeError (msg : string)
| UnboundLocalError (name : string).

Inductive result (A : Type) : Type :=
| Ok (a : A)
| Err (e : exn).
Arguments Ok {A} a.
Arguments Err {A} e.

Definition raises {A : Type} (r : result A) : Prop := exists e, r = Err e.

Definition is_ValueError (e : exn) : bool :=
  match e with ValueError _ => true | _ => false end.

(** ["%i" % n] for an integer [n]. *)
Definition fmt_i (n : Z) : string := NilZero.string_of_int (Z.to_int n).

(** ** Virtual offsets *)

Definition make_virtual_offset (block_start_offset within_block_offset : Z) : result Z :=
  if (within_block_offset <? 0) || (within_block_offset >=? 65536) then
    Err (ValueError ("Require 0 <= within_block_offset < 2**16, got " +:+ fmt_i within_block_offset))
  else if (block_start_offset <? 0) || (block_start_offset >=? 281474976710656) then
    Err (ValueError ("Require 0 <= block_start_offset < 2**48, got " +:+ fmt_i block_start_offset))
  else Ok (Z.lor (Z.shiftl block_start_offset 16) within_block_offset).

Definition split_virtual_offset (virtual_offset : Z) : Z * Z :=
  let coffset := Z.shiftr virtual_offset 16 in
  let uoffset := Z.lxor virtual_offset (Z.shiftl coffset 16) in
  (coffset, uoffset).

(** The order Python gives to pairs of integers. *)
Definition pair_lt (p q : Z * Z) : Prop :=
  fst p < fst q \/ (fst p = fst q /\ snd p < snd q).

(** ** [LruDict], a subclass of [collections.OrderedDict] *)

Module LruDict.
Section Defs.
Context {K V : Type} `{EqDecision K}.

(** The object: the entries of the underlying [OrderedDict], oldest
    first, and the attribute [max_cache]. *)
Record t : Type := Self { items : list (K * V); max_cache : Z }.

(** Methods mutate [self] and may raise: a state and exception monad in
    which the mutations made before a [raise] persist. *)
Definition M (A : Type) : Type := t -> result A * t.

Definition ret {A} (a : A) : M A := fun self => (Ok a, self).
Definition raise {A} (e : exn) : M A := fun self => (Err e, self).
Definition bind {A B} (m : M A) (f : A -> M B) : M B :=
  fun self =>
    match m self with
    | (Ok a, self') => f a self'
    | (Err e, self') => (Err e, self')
    end.
Definition get_items : M (list (K * V)) := fun self => (Ok (items self), self).
Definition set_items (l : list (K * V)) : M unit :=
  fun self => (Ok tt, Self l (max_cache self)).
Definition get_max_cache : M Z := fun self => (Ok (max_cache self), self).

(** [try: body except KeyError: handler] *)
Definition try_except_KeyError {A} (body handler : M A) : M A :=
  fun self =>
    match body self with
    | (Err (KeyError _), self') => handler self'
    | r => r
    end.

Notation "x <- m ;; k" := (bind m (fun x => k))
  (at level 100, m at next level, right associativity).
Notation "m ;; k" := (bind m (fun _ => k))
  (at level 100, right associativity).

(** *** The inherited [OrderedDict] operations, on the entry list

    These are the methods of CPython's C implementation.  [pop] and
    [popitem] take the entry out directly, as current CPython does.  An
    older CPython reads [self[key]] from [popitem]; on the [move_to_end]
    branch of [__getitem__] that read changes nothing, because the entry
    is unlinked by then and the [KeyError] of [move_to_end] is swallowed.
    Interpreters whose [pop] reads [self[key]] on the other branch of
    [__getitem__] are outside this model. *)

Fixpoint od_lookup (key : K) (l : list (K * V)) : option V :=
  match l with
  | [] => None
  | (k, v) :: l' => if decide (k = key) then Some v else od_lookup key l'
  end.

Definition od_remove (key : K) (l : list (K * V)) : list (K * V) :=
  filter (fun kv => kv.1 <> key) l.

(** Assignment keeps the position of a key that is present and appends
    a new key at the end. *)
Fixpoint od_assign (key : K) (value : V) (l : list (K * V)) : list (K * V) :=
  match l with
  | [] => [(key, value)]
  | (k, v) :: l' =>
      if decide (k = key) then (k, value) :: l' else (k, v) :: od_assign key value l'
  end.

(** A missing key raises [KeyError(key)]; the key is of the abstract
    type [K], so the model writes the word [key] for it. *)
Definition OrderedDict_getitem (key : K) : M V :=
  l <- get_items ;;
  match od_lookup key l with
  | Some v => ret v
  | None => raise (KeyError "key")
  end.

Definition OrderedDict_setitem (key : K) (value : V) : M unit :=
  l <- get_items ;; set_items (od_assign key value l).

(** [self.popitem(last=False)] *)
Definition popitem_first : M (K * V) :=
  l <- get_items ;;
  match l with
  | [] => raise (KeyError "dictionary is empty")
  | kv :: l' => set_items l' ;; ret kv
  end.

Definition pop (key : K) : M V :=
  l <- get_items ;;
  match od_lookup key l with
  | Some v => set_items (od_remove key l) ;; ret v
  | None => raise (KeyError "key")
  end.

Definition move_to_end (key : K) : M unit :=
  l <- get_items ;;
  match od_lookup key l with
  | Some v => set_items (od_remove key l ++ [(key, v)])
  | None => raise (KeyError "key")
  end.

(** [for _ in range(n): body] *)
Fixpoint for_range (n : nat) (body : M unit) : M unit :=
  match n with
  | O => ret tt
  | S n' => body ;; for_range n' body
  end.

(** *** The methods of [LruDict] *)

Definition cull : M unit :=
  max_cache <- get_max_cache ;;
  if bool_decide (max_cache <> 0) then
    l <- get_items ;;
    let overflow := Z.max 0 (Z.of_nat (length l) - max_cache) in
    if bool_decide (overflow <> 0) then
      for_range (Z.to_nat overflow) (popitem_first ;; ret tt)
    else ret tt
  else ret tt.

Definition __setitem__ (key : K) (value : V) : M unit :=
  OrderedDict_setitem key value ;; cull.

(** [legacy] is the outcome of [float(_PY_VERSION[:3]) <= 3.2].  The
    result [None] is Python's [None], returned when the [KeyError] is
    swallowed. *)
Definition __getitem__ (legacy : bool) (key : K) : M (option V) :=
  try_except_KeyError
    (value <- OrderedDict_getitem key ;;
     (if legacy then
        l <- get_items ;;
        if bool_decide (Some key <> last (l.*1)) then
          moving <- pop key ;; __setitem__ key moving
        else ret tt
      else move_to_end key) ;;
     ret (Some value))
    (ret None).

Definition __contains__ (key : K) (self : t) : bool :=
  bool_decide (is_Some (od_lookup key (items self))).

Definition __len__ (self : t) : Z := Z.of_nat (length (items self)).

(** [LruDict(max_cache=...)], created empty (initial contents are not
    modelled); [None] stands for the keyword being left out. *)
Definition __init__ (max_cache : option Z) : result t :=
  match cull (Self [] (default 128 max_cache)) with
  | (Ok _, self) => Ok self
  | (Err e, _) => Err e
  end.

(** Writing a list of entries one after the other. *)
Fixpoint put_all (kvs : list (K * V)) : M unit :=
  match kvs with
  | [] => ret tt
  | (k, v) :: kvs' => __setitem__ k v ;; put_all kvs'
  end.

(** The objects a program can hold: those built by the constructor and
    then used through item access and item assignment. *)
Inductive reachable (kw : option Z) : t -> Prop :=
| reach_init self :
    __init__ kw = Ok self -> reachable kw self
| reach_set self key value r self' :
    reachable kw self -> __setitem__ key value self = (r, self') ->
    reachable kw self'
| reach_get self legacy key r self' :
    reachable kw self -> __getitem__ legacy key self = (r, self') ->
    reachable kw self'.

End Defs.
Arguments t : clear implicits.
End LruDict.

(** The recency order in the specification's words, "recency is updated
    on every successful get and every put": the stored keys by their last
    touch, least recently used first. *)
Definition spec_touch (key : string) (order : list string) : list string :=
  filter (fun k => k <> key) order ++ [key].
Definition spec_recency (touched : list string) : list string :=
  fold_left (fun order key => spec_touch key order) touched [].

(** The entries [(0, 0), (1, 1), ..., (n - 1, n - 1)], with distinct keys. *)
Definition numbered (n : nat) : list (Z * Z) :=
  map (fun i => (Z.of_nat i, Z.of_nat i)) (seq 0 n).

(** ** The fragment of [re] that the two patterns use

    Texts are ASCII, as the fields of a SAM record are: [\d] is [0-9] and
    [\w] is [A-Za-z0-9_]. *)

Module Re.

Inductive pattern : Type :=
| Class (p : ascii -> bool)            (* one character of a class *)
| Plus (p : ascii -> bool)             (* c+, greedy *)
| PlusLazy (p : ascii -> bool)         (* c+?, lazy *)
| Cat (r1 r2 : pattern)
| Alt (r1 r2 : pattern)
| Named (name : string) (r : pattern). (* (?P<name>r) *)

Definition groups : Type := list (string * string).

(** What is left to match after a sub-pattern: the rest of the text and
    the groups closed so far; [None] makes the matcher backtrack. *)
Definition cont (A : Type) : Type := list ascii -> groups -> option A.

(** Further repetitions after the first, longest first. *)
Fixpoint greedy_more {A} (p : ascii -> bool) (s : list ascii) (g : groups)
    (k : cont A) : option A :=
  match s with
  | c :: s' =>
      if p c then
        match greedy_more p s' g k with
        | Some x => Some x
        | None => k s g
        end
      else k s g
  | [] => k s g
  end.

(** Further repetitions after the first, shortest first. *)
Fixpoint lazy_more {A} (p : ascii -> bool) (s : list ascii) (g : groups)
    (k : cont A) : option A :=
  match k s g with
  | Some x => Some x
  | None =>
      match s with
      | c :: s' => if p c then lazy_more p s' g k else None
      | [] => None
      end
  end.

Fixpoint run {A} (r : pattern) (s : list ascii) (g : groups) (k : cont A)
    : option A :=
  match r with
  | Class p =>
      match s with
      | c :: s' => if p c then k s' g else None
      | [] => None
      end
  | Plus p =>
      match s with
      | c :: s' => if p c then greedy_more p s' g k else None
      | [] => None
      end
  | PlusLazy p =>
      match s with
      | c :: s' => if p c then lazy_more p s' g k else None
      | [] => None
      end
  | Cat r1 r2 => run r1 s g (fun s1 g1 => run r2 s1 g1 k)
  | Alt r1 r2 =>
      match run r1 s g k with
      | Some x => Some x
      | None => run r2 s g k
      end
  | Named name r1 =>
      run r1 s g (fun s1 g1 =>
        k s1 ((name, string_of_list_ascii (take (length s - length s1) s)) :: g1))
  end.

Record match_object : Type :=
  Match { span : nat; groupdict : groups }.

(** [re.match] at the start of [s]: the length matched and the groups. *)
Definition match_at (r : pattern) (s : list ascii) : option match_object :=
  run r s [] (fun s' g => Some (Match (length s - length s') g)).

(** [m.groupdict()[name]]; [None] when the group took no part. *)
Fixpoint lookup_group (name : string) (g : groups) : option string :=
  match g with
  | [] => None
  | (n, txt) :: g' => if String.eqb n name then Some txt else lookup_group name g'
  end.
Definition group (m : match_object) (name : string) : option string :=
  lookup_group name (groupdict m).

(** The leftmost non-overlapping matches.  [skip] counts the characters
    still covered by the match found last.  (Neither pattern of this
    file matches the empty text.) *)
Fixpoint finditer_from (r : pattern) (skip : nat) (s : list ascii)
    : list match_object :=
  match s with
  | [] => []
  | _ :: s' =>
      match skip with
      | S n => finditer_from r n s'
      | O =>
          match match_at r s with
          | Some m => m :: finditer_from r (span m - 1) s'
          | None => finditer_from r 0 s'
          end
      end
  end.

Definition finditer (r : pattern) (s : string) : list match_object :=
  finditer_from r 0 (list_ascii_of_string s).

Definition in_range (lo hi : ascii) (c : ascii) : bool :=
  (N_of_ascii lo <=? N_of_ascii c)%N && (N_of_ascii c <=? N_of_ascii hi)%N.

(** [\d] *)
Definition digit (c : ascii) : bool := in_range "0" "9" c.
(** [\w] *)
Definition word (c : ascii) : bool :=
  in_range "a" "z" c || in_range "A" "Z" c || digit c || Ascii.eqb c "_".
(** [\^] *)
Definition caret (c : ascii) : bool := Ascii.eqb c "^".

End Re.

(** [int(s)] for a text of decimal digits. *)
Definition int (s : string) : Z :=
  fold_left (fun acc c => 10 * acc + (Z.of_N (N_of_ascii c) - 48))
            (list_ascii_of_string s) 0.

(** [s[start:stop]] *)
Definition slice (s : string) (start stop : Z) : string :=
  let n := Z.of_nat (String.length s) in
  let clamp i := if i <? 0 then Z.max 0 (i + n) else Z.min i n in
  let a := clamp start in
  let b := clamp stop in
  String.substring (Z.to_nat a) (Z.to_nat (b - a)) s.

(** ** CIGAR strings *)

(** An operation as it sits in a CIGAR list: a plain id, or the
    [(name, id)] tuple stored in [_CIGAR_OPS]. *)
Inductive op_value : Type :=
| OpId (id : Z)
| OpTuple (name : string) (id : Z).

Definition _CIGAR_OPS : list (string * (string * Z)) :=
  [("M", ("BAM_CMATCH", 0)); ("I", ("BAM_CINS", 1)); ("D", ("BAM_CDEL", 2));
   ("N", ("BAM_CREF_SKIP", 3)); ("S", ("BAM_CSOFT_CLIP", 4));
   ("H", ("BAM_CHARD_CLIP", 5)); ("P", ("BAM_CPAD", 6)); ("=", ("BAM_CEQUAL", 7));
   ("X", ("BAM_CDIFF", 8)); ("B", ("BAM_CBACK", 9))].

Fixpoint dict_get {A} (d : list (string * A)) (key : string) : option A :=
  match d with
  | [] => None
  | (k, a) :: d' => if String.eqb k key then Some a else dict_get d' key
  end.

(** [(?P<n_op>\d+)(?P<op>\w)] *)
Definition cigar_re : Re.pattern :=
  Re.Cat (Re.Named "n_op" (Re.Plus Re.digit)) (Re.Named "op" (Re.Class Re.word)).

Definition result_bind {A B} (r : result A) (f : A -> result B) : result B :=
  match r with
  | Ok a => f a
  | Err e => Err e
  end.

Notation "x <-! r ;; k" := (result_bind r (fun x => k))
  (at level 100, r at next level, right associativity).

(** A group read from [groupdict()]; a group that took no part is [None]
    there, which neither [int] nor a dictionary of texts accepts. *)
Definition group_text (m : Re.match_object) (name : string) : result string :=
  match Re.group m name with
  | Some txt => Ok txt
  | None => Err (TypeError name)
  end.

Definition cigar_entry (cigar_op : Re.match_object) : result (op_value * Z) :=
  n_op <-! group_text cigar_op "n_op" ;;
  let n_ops := int n_op in
  key <-! group_text cigar_op "op" ;;
  match dict_get _CIGAR_OPS key with
  | Some (name, id) => Ok (OpTuple name id, n_ops)
  | None => Err (KeyError key)
  end.

Fixpoint parse_cigar_loop (ms : list Re.match_object)
    (cigar_array : list (op_value * Z)) : result (list (op_value * Z)) :=
  match ms with
  | [] => Ok cigar_array
  | cigar_op :: ms' =>
      entry <-! cigar_entry cigar_op ;;
      parse_cigar_loop ms' (cigar_array ++ [entry])
  end.

Definition parse_cigar (cigar_str : string) : result (list (op_value * Z)) :=
  parse_cigar_loop (Re.finditer cigar_re cigar_str) [].

(** [op in {...}] and [op == id]: a tuple equals no integer. *)
Definition op_eq (op : op_value) (id : Z) : bool :=
  match op with
  | OpId i => i =? id
  | OpTuple _ _ => false
  end.
Definition op_in (op : op_value) (ids : list Z) : bool := existsb (op_eq op) ids.

(** A scanned token whose character is not a key of [_CIGAR_OPS]. *)
Definition unknown_op (m : Re.match_object) : Prop :=
  exists key, Re.group m "op" = Some key /\ dict_get _CIGAR_OPS key = None.

(** What [groupdict()] holds after a match of the CIGAR pattern. *)
Definition both_groups (m : Re.match_object) : Prop :=
  exists n_op op, Re.groupdict m = [("op", op); ("n_op", n_op)].

Definition is_tuple (entry : op_value * Z) : Prop :=
  match entry.1 with
  | OpTuple _ _ => True
  | OpId _ => False
  end.

(** The texts the specification calls well formed, in its words: a
    sequence of tokens, each a non-empty run of digits followed by one of
    the ten operation codes.  [in_token] tells that digits of a token
    have been read. *)
Definition spec_opcode (c : ascii) : bool :=
  existsb (Ascii.eqb c) (list_ascii_of_string "MIDNSHP=XB").
Fixpoint spec_cigar_tokens (in_token : bool) (s : list ascii) : bool :=
  match s with
  | [] => negb in_token
  | c :: s' =>
      if Re.digit c then spec_cigar_tokens true s'
      else if in_token && spec_opcode c then spec_cigar_tokens false s'
      else false
  end.
Definition spec_cigar_well_formed (s : string) : bool :=
  spec_cigar_tokens false (list_ascii_of_string s).

(** The argument [cigar] of [cigar_changes], by its Python type. *)
Inductive cigar_arg : Type :=
| CigarStr (s : string)
| CigarList (l : list (op_value * Z))
| CigarOther.

Fixpoint cigar_changes_loop (seq : string) (cigar : list (op_value * Z))
    (cigar_formatted_ref : string) (last_cigar_pos : Z) : result string :=
  match cigar with
  | [] => Ok cigar_formatted_ref
  | (op, n_ops) :: cigar' =>
      if op_in op [0; 7; 8] then
        cigar_changes_loop seq cigar'
          (cigar_formatted_ref +:+ slice seq last_cigar_pos (last_cigar_pos + n_ops))
          (last_cigar_pos + n_ops)
      else if op_in op [1; 4] then
        cigar_changes_loop seq cigar' cigar_formatted_ref (last_cigar_pos + n_ops)
      else if op_eq op 3 then
        (* tmp_ref_seq += 'N' * n_ops: the local is read before any assignment *)
        Err (UnboundLocalError "tmp_ref_seq")
      else if op_eq op 5 then
        cigar_changes_loop seq cigar' cigar_formatted_ref last_cigar_pos
      else Err (ValueError "Invalid CIGAR string")
  end.

Definition cigar_changes (seq : string) (cigar : cigar_arg) : result string :=
  cigar <-! match cigar with
            | CigarStr s => parse_cigar s
            | CigarList l => Ok l
            | CigarOther =>
                Err (ValueError "CIGAR must be string or list of tuples of cigar operations (by ID) and number of operations")
            end ;;
  cigar_changes_loop seq cigar "" 0.

(** ** MD tags *)

(** [(?P<matches>\d+)|(?P<del>\^\w+?)|(?P<sub>\w)] *)
Definition md_re : Re.pattern :=
  Re.Alt (Re.Named "matches" (Re.Plus Re.digit))
    (Re.Alt (Re.Named "del" (Re.Cat (Re.Class Re.caret) (Re.PlusLazy Re.word)))
            (Re.Named "sub" (Re.Class Re.word))).

Fixpoint md_changes_loop (seq : string) (ms : list Re.match_object)
    (ref_seq : string) (last_md_pos : Z) : string :=
  match ms with
  | [] => ref_seq
  | mo :: ms' =>
      match Re.group mo "matches" with
      | Some txt =>
          let matches := int txt in
          md_changes_loop seq ms'
            (ref_seq +:+ slice seq last_md_pos (last_md_pos + matches))
            (last_md_pos + matches)
      | None =>
          match Re.group mo "del" with
          | Some deletion =>
              md_changes_loop seq ms'
                (ref_seq +:+ slice deletion 1 (Z.of_nat (String.length deletion)))
                last_md_pos
          | None =>
              match Re.group mo "sub" with
              | Some substitution =>
                  md_changes_loop seq ms' (ref_seq +:+ substitution) (last_md_pos + 1)
              | None => md_changes_loop seq ms' ref_seq last_md_pos
              end
          end
      end
  end.

Definition md_changes (seq md_tag : string) : string :=
  md_changes_loop seq (Re.finditer md_re md_tag) "" 0.

(** ** Virtual offsets: proofs *)

(** ** Small helpers of the module *)

(** [ceildiv(a, b)], that is [-(-a // b)]; [//] rounds to the floor, as
    [Z.div] does.  [None] stands for the [ZeroDivisionError] of a zero
    denominator. *)
Definition ceildiv (a b : Z) : option Z :=
  if b =? 0 then None else Some (- (- a / b)).

(** The table [flags] of [flag_decode], in the order it is written, which
    is the order a dictionary is iterated in. *)
Definition flags : list (Z * string) :=
  [(1, "read paired"); (2, "read mapped in proper pair");
   (4, "read unmapped"); (8, "mate unmapped");
   (16, "read reverse strand"); (32, "mate reverse strand");
   (64, "first in pair"); (128, "second in pair");
   (256, "secondary alignment"); (512, "QC fail");
   (1024, "PCR or optical duplicate"); (2048, "supplementary alignment")].

(** The argument of [flag_decode]: an integer, or a read object whose
    attribute [flag] is an integer ([Some]) or something else ([None]). *)
Inductive flag_arg : Type :=
| FlagInt (code : Z)
| FlagOf (flag : option Z).

Definition flag_decode (flag_code : flag_arg) : result (list (Z * string)) :=
  code <-! match flag_code with
           | FlagInt code => Ok code
           | FlagOf (Some code) => Ok code
           | FlagOf None => Err (ValueError "Provided flag is not a valid entry")
           end ;;
  Ok (filter (fun entry => Z.land entry.1 code <> 0) flags).

(** The sum of a list of integers. *)
Definition sum_list (l : list Z) : Z := foldr Z.add 0 l.

(** Whether the keys that [flag_decode] keeps for [code] add up to [code]. *)
Definition flag_keys_add_up (code : Z) : bool :=
  sum_list (filter (fun entry => Z.land entry.1 code <> 0) flags).*1 =? code.

(** What [cull] leaves of the entries [l] under the capacity [mc]. *)
Definition cull_keep {A : Type} (mc : Z) (l : list A) : list A :=
  if bool_decide (mc = 0) then l else drop (length l - Z.to_nat mc) l.

(** The operations [cigar_changes] has a branch for, with a length that
    is not negative. *)
Definition supported_op (entry : op_value * Z) : Prop :=
  op_in entry.1 [0; 1; 4; 5; 7; 8] = true /\ 0 <= entry.2.

(** The operations that copy from the read, with a length that is not
    negative. *)
Definition match_op (entry : op_value * Z) : Prop :=
  op_in entry.1 [0; 7; 8] = true /\ 0 <= entry.2.

(** The number of bases of the read that a CIGAR walks over, and the
    number of them that it copies. *)
Definition query_span (cigar : list (op_value * Z)) : Z :=
  foldr (fun entry acc => if op_in entry.1 [0; 1; 4; 7; 8] then entry.2 + acc else acc)
        0 cigar.
Definition copied_span (cigar : list (op_value * Z)) : Z :=
  foldr (fun entry acc => if op_in entry.1 [0; 7; 8] then entry.2 + acc else acc)
        0 cigar.

(** A CIGAR text put together from tokens, each a run of digits and one
    character. *)
Fixpoint cigar_text (tokens : list (list ascii * ascii)) : list ascii :=
  match tokens with
  | [] => []
  | (digits, c) :: tokens' => digits ++ c :: cigar_text tokens'
  end.

(** A token the scan can read, and the entry [parse_cigar] makes of it:
    one digit at least, a character that is a key of [_CIGAR_OPS] and a
    word character (every key but [=]). *)
Definition cigar_token_entry (token : list ascii * ascii)
    (entry : op_value * Z) : Prop :=
  token.1 <> [] /\
  Forall (fun c => Re.digit c = true) token.1 /\
  Re.word token.2 = true /\
  exists name id,
    dict_get _CIGAR_OPS (String token.2 "") = Some (name, id) /\
    entry = (OpTuple name id, int (string_of_list_ascii token.1)).

(** What holds of an entry that [parse_cigar] returns. *)
Definition parsed_entry (entry : op_value * Z) : Prop :=
  0 <= entry.2 /\
  exists key name id,
    dict_get _CIGAR_OPS key = Some (name, id) /\
    entry.1 = OpTuple name id /\ id <> 7.

(** The tokens of an MD tag in which every deletion is of one base: a
    run of digits, a base that differs, or [^] and the base deleted. *)
Inductive md_token : Type :=
| MdMatch (digits : list ascii)
| MdSub (base : ascii)
| MdDel (base : ascii).

Definition md_token_text (token : md_token) : list ascii :=
  match token with
  | MdMatch digits => digits
  | MdSub base => [base]
  | MdDel base => ["^"%char; base]
  end.

Fixpoint md_text (tokens : list md_token) : list ascii :=
  match tokens with
  | [] => []
  | token :: tokens' => md_token_text token ++ md_text tokens'
  end.

(** The tokens can be read back from their text: a run has a digit and is
    not followed by another run, and a base is a word character, for a
    substitution one that is no digit.  [after_run] tells that the token
    before was a run. *)
Fixpoint md_tokens_ok (after_run : bool) (tokens : list md_token) : Prop :=
  match tokens with
  | [] => True
  | MdMatch digits :: tokens' =>
      after_run = false /\ digits <> [] /\
      Forall (fun c => Re.digit c = true) digits /\ md_tokens_ok true tokens'
  | MdSub base :: tokens' =>
      Re.word base = true /\ Re.digit base = false /\ md_tokens_ok false tokens'
  | MdDel base :: tokens' =>
      Re.word base = true /\ md_tokens_ok false tokens'
  end.

(** What the tokens mean, one after the other: a run copies that many
    bases of the read and moves the cursor past them, a substitution gives
    its base and moves the cursor by one, a deletion gives its base and
    leaves the cursor. *)
Fixpoint md_apply (seq : string) (tokens : list md_token) (ref_seq : string)
    (last_md_pos : Z) : string :=
  match tokens with
  | [] => ref_seq
  | MdMatch digits :: tokens' =>
      let matches := int (string_of_list_ascii digits) in
      md_apply seq tokens'
        (ref_seq +:+ slice seq last_md_pos (last_md_pos + matches))
        (last_md_pos + matches)
  | MdSub base :: tokens' =>
      md_apply seq tokens' (ref_seq +:+ String base "") (last_md_pos + 1)
  | MdDel base :: tokens' =>
      md_apply seq tokens' (ref_seq +:+ String base "") last_md_pos
  end.

Example split_virtual_offset_doctest :
  split_virtual_offset 6553600000 = (100000, 0) /\
  split_virtual_offset 6553600010 = (100000, 10).
Proof. split; reflexivity. Qed.

Section VirtualOffset.

Lemma low_bits_disjoint (b w : Z) :
  0 <= w < 65536 -> Z.land (Z.shiftl b 16) w = 0.
Proof.
  intros Hw. apply Z.bits_inj'. intros n Hn.
  rewrite Z.land_spec, Z.bits_0.
  destruct (Z.lt_ge_cases n 16) as [Hlt | Hge].
  - rewrite Z.shiftl_spec_low by lia. reflexivity.
  - rewrite (Z.bits_above_log2 w n); [apply andb_false_r | lia |].
    destruct (Z.eq_dec w 0) as [-> | Hnz]; [simpl; lia |].
    assert (Z.log2 w < 16) by (apply Z.log2_lt_pow2; simpl; lia).
    lia.
Qed.

Lemma pack_as_sum (b w : Z) :
  0 <= w < 65536 -> Z.lor (Z.shiftl b 16) w = b * 65536 + w.
Proof.
  intros Hw.
  rewrite <- Z.lxor_lor by (apply low_bits_disjoint; assumption).
  rewrite <- Z.add_nocarry_lxor by (apply low_bits_disjoint; assumption).
  rewrite Z.shiftl_mul_pow2 by lia. reflexivity.
Qed.

Lemma make_virtual_offset_in_range (b w : Z) :
  0 <= b < 2 ^ 48 -> 0 <= w < 2 ^ 16 ->
  make_virtual_offset b w = Ok (b * 65536 + w).
Proof.
  intros Hb Hw. unfold make_virtual_offset.
  change (2 ^ 48) with 281474976710656 in Hb. change (2 ^ 16) with 65536 in Hw.
  destruct (Z.ltb_spec w 0); [lia |].
  destruct (Z.geb_spec w 65536); [lia |].
  destruct (Z.ltb_spec b 0); [lia |].
  destruct (Z.geb_spec b 281474976710656); [lia |].
  simpl. rewrite pack_as_sum by lia. reflexivity.
Qed.

Lemma split_of_sum (b w : Z) :
  0 <= w < 65536 -> split_virtual_offset (b * 65536 + w) = (b, w).
Proof.
  intros Hw. unfold split_virtual_offset. cbv zeta.
  assert (Hc : Z.shiftr (b * 65536 + w) 16 = b).
  { rewrite Z.shiftr_div_pow2 by lia. change (2 ^ 16) with 65536.
    rewrite Z.div_add_l by lia. rewrite Z.div_small by lia. lia. }
  rewrite Hc. f_equal.
  rewrite <- pack_as_sum by assumption.
  rewrite <- Z.lxor_lor by (apply low_bits_disjoint; assumption).
  rewrite Z.lxor_comm, <- Z.lxor_assoc, Z.lxor_nilpotent. apply Z.lxor_0_l.
Qed.

End VirtualOffset.

(** C3: for every [block_start] in [0, 2^48) and [within_block] in
    [0, 2^16), [make_virtual_offset] returns an offset, and
    [split_virtual_offset] of that offset is the pair
    [(block_start, within_block)] again. *)
Theorem split_make_virtual_offset (block_start within_block : Z) :
  0 <= block_start < 2 ^ 48 ->
  0 <= within_block < 2 ^ 16 ->
  exists offset,
    make_virtual_offset block_start within_block = Ok offset /\
    split_virtual_offset offset = (block_start, within_block).
Proof.
  intros Hb Hw. exists (block_start * 65536 + within_block). split.
  - apply make_virtual_offset_in_range; assumption.
  - apply split_of_sum. change (2 ^ 16) with 65536 in Hw. exact Hw.
Qed.

Lemma split_make_virtual_offset_witness :
  exists offset,
    make_virtual_offset 100000 10 = Ok offset /\
    split_virtual_offset offset = (100000, 10).
Proof. apply (split_make_virtual_offset 100000 10); simpl; lia. Defined.

(** C7: [make_virtual_offset] raises, and then a [ValueError], exactly
    when [within_block_offset] is outside [0, 2^16) or
    [block_start_offset] is outside [0, 2^48).  At the boundaries:
    [(0, 65536)] raises, [(0, 65535)] gives 65535, [(2^48, 0)] raises and
    [(2^48 - 1, 0)] gives a value. *)
Theorem make_virtual_offset_raises_iff :
  (forall b w : Z,
      (raises (make_virtual_offset b w) <->
       ~ (0 <= w < 2 ^ 16) \/ ~ (0 <= b < 2 ^ 48)) /\
      (forall e, make_virtual_offset b w = Err e -> is_ValueError e = true)) /\
  raises (make_virtual_offset 0 65536) /\
  make_virtual_offset 0 65535 = Ok 65535 /\
  raises (make_virtual_offset (2 ^ 48) 0) /\
  make_virtual_offset (2 ^ 48 - 1) 0 = Ok 18446744073709486080.
Proof.
  split; [| repeat split; try reflexivity; eexists; reflexivity].
  intros b w. change (2 ^ 48) with 281474976710656. change (2 ^ 16) with 65536.
  unfold raises, make_virtual_offset.
  destruct (Z.ltb_spec w 0); destruct (Z.geb_spec w 65536);
    destruct (Z.ltb_spec b 0); destruct (Z.geb_spec b 281474976710656);
    simpl; (split; [split |]);
    try (intros _; left; lia); try (intros _; right; lia);
    try (intros _; eexists; reflexivity);
    try (intros [e He]; discriminate He);
    try (intros [Hc | Hc]; exfalso; apply Hc; lia);
    try (intros e He; injection He as <-; reflexivity);
    try (intros e He; discriminate He).
Qed.

(** C9: for pairs within the ranges, the packed offsets compare as
    integers the way the pairs compare lexicographically. *)
Theorem make_virtual_offset_order (b1 w1 b2 w2 : Z) :
  0 <= b1 < 2 ^ 48 -> 0 <= w1 < 2 ^ 16 ->
  0 <= b2 < 2 ^ 48 -> 0 <= w2 < 2 ^ 16 ->
  exists v1 v2,
    make_virtual_offset b1 w1 = Ok v1 /\
    make_virtual_offset b2 w2 = Ok v2 /\
    (v1 < v2 <-> pair_lt (b1, w1) (b2, w2)).
Proof.
  intros Hb1 Hw1 Hb2 Hw2.
  exists (b1 * 65536 + w1), (b2 * 65536 + w2).
  split; [apply make_virtual_offset_in_range; assumption |].
  split; [apply make_virtual_offset_in_range; assumption |].
  change (2 ^ 16) with 65536 in Hw1, Hw2.
  unfold pair_lt; simpl. lia.
Qed.

Lemma make_virtual_offset_order_witness :
  exists v1 v2,
    make_virtual_offset 3 65535 = Ok v1 /\
    make_virtual_offset 4 0 = Ok v2 /\
    (v1 < v2 <-> pair_lt (3, 65535) (4, 0)).
Proof. apply (make_virtual_offset_order 3 65535 4 0); simpl; lia. Defined.

(** ** [LruDict]: proofs *)

Section LruDictFacts.
Context {K V : Type} `{EqDecision K}.
Import LruDict.

Implicit Types (l : list (K * V)) (key : K) (value : V) (self : t K V).

Lemma for_range_popitem (n : nat) l (mc : Z) :
  (n <= length l)%nat ->
  for_range n (bind popitem_first (fun _ => ret tt)) (Self l mc)
  = (Ok tt, Self (drop n l) mc).
Proof.
  revert l. induction n as [| n IH]; intros l Hn.
  - reflexivity.
  - destruct l as [| kv l']; [simpl in Hn; lia |].
    simpl in Hn. cbn. unfold bind in IH. rewrite IH by lia. reflexivity.
Qed.

Lemma cull_positive l (mc : Z) :
  0 < mc ->
  cull (Self l mc) = (Ok tt, Self (drop (length l - Z.to_nat mc) l) mc).
Proof.
  intros Hmc. unfold cull, bind, get_max_cache, get_items.
  cbv beta iota. cbn [max_cache]. rewrite bool_decide_eq_true_2 by lia.
  cbv beta. cbn [items].
  replace (Z.to_nat (Z.max 0 (Z.of_nat (length l) - mc)))
    with (length l - Z.to_nat mc)%nat by lia.
  case_bool_decide as Hov.
  - apply for_range_popitem. lia.
  - replace (length l - Z.to_nat mc)%nat with 0%nat by lia. reflexivity.
Qed.

Lemma cull_unbounded l : cull (Self l 0) = (Ok tt, Self l 0).
Proof. reflexivity. Qed.

Lemma setitem_positive key value l (mc : Z) :
  0 < mc ->
  __setitem__ key value (Self l mc)
  = (Ok tt, Self (drop (length (od_assign key value l) - Z.to_nat mc)
                       (od_assign key value l)) mc).
Proof. intros Hmc. unfold __setitem__, bind. cbn. apply cull_positive, Hmc. Qed.

Lemma od_assign_length key value l :
  (length (od_assign key value l) <= S (length l))%nat.
Proof.
  induction l as [| [k v] l IH]; cbn; [lia |].
  case_decide; cbn; lia.
Qed.

Lemma od_assign_fresh key value l :
  key ∉ l.*1 -> od_assign key value l = l ++ [(key, value)].
Proof.
  induction l as [| [k v] l IH]; cbn; intros Hnot; [reflexivity |].
  rewrite not_elem_of_cons in Hnot. destruct Hnot as [Hne Hnot].
  rewrite decide_False by congruence. f_equal. apply IH, Hnot.
Qed.

Lemma od_remove_length key l v :
  od_lookup key l = Some v -> (S (length (od_remove key l)) <= length l)%nat.
Proof.
  unfold od_remove. induction l as [| [k v'] l IH]; [discriminate |].
  cbn [od_lookup length]. intros Hl.
  pose proof (length_filter (fun kv : K * V => kv.1 <> key) l) as Hle.
  destruct (decide (k = key)) as [Hk | Hk].
  - rewrite filter_cons_False by (cbn; tauto). lia.
  - rewrite filter_cons_True by (cbn; congruence).
    specialize (IH Hl). cbn [length]. lia.
Qed.

Lemma od_remove_fresh key l : key ∉ (od_remove key l).*1.
Proof.
  unfold od_remove. intros Hin. apply list_elem_of_fmap in Hin.
  destruct Hin as [[k v] [-> Hin]]. apply list_elem_of_filter in Hin.
  cbn in Hin. tauto.
Qed.

(** What [__getitem__] leaves behind, in each of its cases. *)
Lemma getitem_cases (legacy : bool) key l (mc : Z) :
  0 < mc ->
  match od_lookup key l with
  | None => __getitem__ legacy key (Self l mc) = (Ok None, Self l mc)
  | Some v =>
      let moved := od_remove key l ++ [(key, v)] in
      __getitem__ legacy key (Self l mc)
      = (Ok (Some v),
         Self (if legacy then
                 if bool_decide (Some key <> last (l.*1)) then
                   drop (length moved - Z.to_nat mc) moved
                 else l
               else moved) mc)
  end.
Proof.
  intros Hmc. destruct (od_lookup key l) as [v |] eqn:Hl.
  - unfold __getitem__, try_except_KeyError, bind, OrderedDict_getitem,
      move_to_end, pop, get_items. cbn -[__setitem__ od_remove]. rewrite Hl. cbn -[__setitem__ od_remove].
    destruct legacy; cbn -[__setitem__ od_remove].
    + case_bool_decide; cbn -[__setitem__ od_remove]; [| reflexivity].
      rewrite Hl. cbn -[__setitem__ od_remove].
      pose proof (setitem_positive key v (od_remove key l) mc Hmc) as Hs.
      rewrite (od_assign_fresh key v (od_remove key l)) in Hs
        by apply od_remove_fresh.
      rewrite Hs. reflexivity.
    + rewrite Hl. reflexivity.
  - unfold __getitem__, try_except_KeyError, bind, OrderedDict_getitem,
      get_items. cbn -[__setitem__ od_remove]. rewrite Hl. reflexivity.
Qed.

Lemma init_positive (kw : option Z) self :
  default 128 kw <> 0 -> __init__ kw = Ok self ->
  0 < default 128 kw /\ self = Self [] (default 128 kw).
Proof.
  unfold __init__. generalize (default 128 kw). intros cap Hnz.
  destruct (Z.lt_ge_cases 0 cap) as [Hpos | Hneg].
  - rewrite cull_positive by assumption. cbn. intros [= <-]. auto.
  - unfold cull, bind, get_max_cache, get_items. cbv beta iota.
    cbn [max_cache]. rewrite bool_decide_eq_true_2 by lia.
    cbv beta. cbn [items length].
    rewrite bool_decide_eq_true_2 by lia.
    destruct (Z.to_nat (Z.max 0 (Z.of_nat 0 - cap))) as [| n] eqn:Hn; [lia |].
    cbn. discriminate.
Qed.

(** The size bound is an invariant of every object a program can hold. *)
Lemma reachable_bounded (kw : option Z) self :
  default 128 kw <> 0 -> reachable kw self ->
  0 < default 128 kw /\ max_cache self = default 128 kw /\
  (length (items self) <= Z.to_nat (default 128%Z kw))%nat.
Proof.
  intros Hnz Hr. induction Hr as
      [self Hinit
      | self key value r self' Hr IH Hset
      | self legacy key r self' Hr IH Hget].
  - destruct (init_positive kw self Hnz Hinit) as [Hpos ->]. cbn. lia.
  - destruct IH as (Hpos & Hmc & Hlen). destruct self as [l mc].
    cbn [items max_cache] in *. subst mc.
    rewrite setitem_positive in Hset by assumption.
    injection Hset as <- <-. cbn. rewrite length_drop. lia.
  - destruct IH as (Hpos & Hmc & Hlen). destruct self as [l mc].
    cbn [items max_cache] in *. subst mc.
    pose proof (getitem_cases legacy key l _ Hpos) as Hc.
    destruct (od_lookup key l) as [v |] eqn:Hl.
    + cbv zeta in Hc. rewrite Hc in Hget. injection Hget as <- <-. cbn.
      pose proof (od_remove_length key l v Hl) as Hrem.
      repeat split; try assumption.
      destruct legacy; [case_bool_decide |];
        rewrite ?length_drop, ?length_app; cbn; lia.
    + rewrite Hc in Hget. injection Hget as <- <-. cbn. auto.
Qed.

Lemma od_lookup_is_Some key l : is_Some (od_lookup key l) <-> key ∈ l.*1.
Proof.
  induction l as [| [k v] l IH]; cbn.
  - split; [intros [x Hx]; discriminate | intros Hin; inversion Hin].
  - rewrite elem_of_cons. case_decide as Hk.
    + split; [intros _; left; congruence | eauto].
    + rewrite IH. split; [tauto | intros [Heq | Hin]; [congruence | assumption]].
Qed.

Lemma put_all_unbounded (kvs l : list (K * V)) :
  NoDup (l ++ kvs).*1 ->
  put_all kvs (Self l 0) = (Ok tt, Self (l ++ kvs) 0).
Proof.
  revert l. induction kvs as [| [k v] kvs IH]; intros l Hnd.
  - rewrite app_nil_r. reflexivity.
  - cbn [put_all]. unfold bind.
    assert (Hset : __setitem__ k v (Self l 0) = (Ok tt, Self (l ++ [(k, v)]) 0)).
    { unfold __setitem__, OrderedDict_setitem, bind, get_items, set_items.
      cbn [items max_cache]. rewrite cull_unbounded.
      rewrite od_assign_fresh; [reflexivity |].
      rewrite fmap_app in Hnd. apply NoDup_app in Hnd.
      destruct Hnd as (_ & Hdisj & _). intros Hin.
      apply (Hdisj k Hin). cbn. left. }
    rewrite Hset. rewrite IH; rewrite <- app_assoc; [reflexivity | exact Hnd].
Qed.

End LruDictFacts.

(** C4: with [max_cache=2] and three distinct keys, writing [a], writing
    [b], reading [a] and writing [c] leaves exactly [a] and [c] stored:
    the read returns the value of [a] and moves [a] behind [b], so the
    overflow of the last write removes [b], the entry touched least
    recently.  This holds on both branches of the version test. *)
Theorem lru_read_then_overflow_evicts_other {K V : Type} `{EqDecision K}
    (a b c : K) (v1 v2 v3 : V) (legacy : bool) :
  a <> b -> a <> c -> b <> c ->
  exists s0 s1 s2 s3 s4 : LruDict.t K V,
    LruDict.__init__ (Some 2) = Ok s0 /\
    LruDict.__setitem__ a v1 s0 = (Ok tt, s1) /\
    LruDict.__setitem__ b v2 s1 = (Ok tt, s2) /\
    LruDict.__getitem__ legacy a s2 = (Ok (Some v1), s3) /\
    LruDict.items s3 = [(b, v2); (a, v1)] /\
    LruDict.__setitem__ c v3 s3 = (Ok tt, s4) /\
    LruDict.items s4 = [(a, v1); (c, v3)] /\
    LruDict.__contains__ a s4 = true /\
    LruDict.__contains__ c s4 = true /\
    LruDict.__contains__ b s4 = false.
Proof.
  intros Hab Hac Hbc.
  exists (LruDict.Self [] 2), (LruDict.Self [(a, v1)] 2),
    (LruDict.Self [(a, v1); (b, v2)] 2), (LruDict.Self [(b, v2); (a, v1)] 2),
    (LruDict.Self [(a, v1); (c, v3)] 2).
  split; [reflexivity |].
  split; [reflexivity |].
  split.
  { rewrite setitem_positive by lia. cbn. rewrite decide_False by congruence.
    reflexivity. }
  split.
  { pose proof (getitem_cases legacy a [(a, v1); (b, v2)] 2 ltac:(lia)) as Hg.
    cbn in Hg. rewrite decide_True in Hg by reflexivity. cbn in Hg.
    rewrite Hg.
    destruct (decide (a <> a)) as [Haa | _]; [congruence |].
    destruct (decide (b <> a)) as [_ | Hba]; [| exfalso; apply Hba; congruence].
    rewrite bool_decide_eq_true_2 by congruence.
    destruct legacy; reflexivity. }
  split; [reflexivity |].
  split.
  { rewrite setitem_positive by lia. cbn.
    rewrite !decide_False by congruence. reflexivity. }
  split; [reflexivity |].
  unfold LruDict.__contains__. cbn.
  repeat split.
  - apply bool_decide_eq_true_2. rewrite decide_True by reflexivity. eauto.
  - apply bool_decide_eq_true_2. rewrite decide_False by congruence.
    rewrite decide_True by reflexivity. eauto.
  - apply bool_decide_eq_false_2. rewrite !decide_False by congruence.
    intros [x Hx]. discriminate Hx.
Qed.

Lemma lru_read_then_overflow_evicts_other_witness :
  exists s0 s1 s2 s3 s4 : LruDict.t string Z,
    LruDict.__init__ (Some 2) = Ok s0 /\
    LruDict.__setitem__ "a" 1 s0 = (Ok tt, s1) /\
    LruDict.__setitem__ "b" 2 s1 = (Ok tt, s2) /\
    LruDict.__getitem__ false "a" s2 = (Ok (Some 1), s3) /\
    LruDict.items s3 = [("b", 2); ("a", 1)] /\
    LruDict.__setitem__ "c" 3 s3 = (Ok tt, s4) /\
    LruDict.items s4 = [("a", 1); ("c", 3)] /\
    LruDict.__contains__ "a" s4 = true /\
    LruDict.__contains__ "c" s4 = true /\
    LruDict.__contains__ "b" s4 = false.
Proof.
  apply (lru_read_then_overflow_evicts_other "a" "b" "c" 1 2 3 false);
    discriminate.
Defined.

(** C5, as the code has it: with [max_cache=0] the dictionary is
    unbounded, and writing any number of entries with distinct keys keeps
    them all, in the order written; leaving [max_cache] out gives the
    capacity 128. *)
Theorem zero_capacity_retains_all {K V : Type} `{EqDecision K}
    (kvs : list (K * V)) :
  NoDup kvs.*1 ->
  (exists s0 s1 : LruDict.t K V,
      LruDict.__init__ (Some 0) = Ok s0 /\
      LruDict.put_all kvs s0 = (Ok tt, s1) /\
      LruDict.items s1 = kvs /\
      LruDict.__len__ s1 = Z.of_nat (length kvs) /\
      Forall (fun k => LruDict.__contains__ k s1 = true) kvs.*1) /\
  LruDict.__init__ (K := K) (V := V) None = Ok (LruDict.Self [] 128).
Proof.
  intros Hnd. split; [| reflexivity].
  exists (LruDict.Self [] 0), (LruDict.Self kvs 0).
  split; [reflexivity |].
  split; [apply (put_all_unbounded kvs []); exact Hnd |].
  split; [reflexivity |].
  split; [reflexivity |].
  apply Forall_forall. intros k Hk. unfold LruDict.__contains__.
  apply bool_decide_eq_true_2. apply od_lookup_is_Some. exact Hk.
Qed.

Lemma zero_capacity_retains_all_witness :
  (exists s0 s1 : LruDict.t Z Z,
      LruDict.__init__ (Some 0) = Ok s0 /\
      LruDict.put_all (numbered 200) s0 = (Ok tt, s1) /\
      LruDict.items s1 = numbered 200 /\
      LruDict.__len__ s1 = Z.of_nat (length (numbered 200)) /\
      Forall (fun k => LruDict.__contains__ k s1 = true) (numbered 200).*1) /\
  LruDict.__init__ (K := Z) (V := Z) None = Ok (LruDict.Self [] 128).
Proof.
  apply (zero_capacity_retains_all (numbered 200)).
  apply (bool_decide_unpack (NoDup (numbered 200).*1)). vm_compute. exact I.
Defined.

(** C5 fails for a dictionary built without [max_cache]: the capacity is
    then 128, and after 129 entries with distinct keys have been written
    only 128 are left; the first key is gone. *)
Lemma default_capacity_evicts :
  exists s0 s1 : LruDict.t Z Z,
    LruDict.__init__ None = Ok s0 /\
    NoDup (numbered 129).*1 /\
    LruDict.put_all (numbered 129) s0 = (Ok tt, s1) /\
    LruDict.__len__ s1 = 128 /\
    LruDict.__contains__ 0 s1 = false.
Proof.
  exists (LruDict.Self [] 128), (LruDict.Self (tail (numbered 129)) 128).
  split; [reflexivity |].
  split; [apply (bool_decide_unpack (NoDup (numbered 129).*1)); vm_compute; exact I |].
  split; [vm_compute; reflexivity |].
  split; vm_compute; reflexivity.
Qed.

(** X22: on every dictionary built with a nonzero capacity ([max_cache],
    or 128 when it is left out) and used through item access and
    assignment, an assignment succeeds and leaves at most that many
    entries; the entries it drops are taken from the front of the
    dictionary's order, until the size equals the capacity. *)
Theorem setitem_keeps_size_within_capacity {K V : Type} `{EqDecision K}
    (kw : option Z) (self : LruDict.t K V) (key : K) (value : V) :
  default 128 kw <> 0 ->
  LruDict.reachable kw self ->
  exists self' : LruDict.t K V,
    LruDict.__setitem__ key value self = (Ok tt, self') /\
    LruDict.reachable kw self' /\
    LruDict.max_cache self' = default 128 kw /\
    LruDict.__len__ self' <= LruDict.max_cache self' /\
    (let written := LruDict.od_assign key value (LruDict.items self) in
     LruDict.items self'
     = drop (length written - Z.to_nat (LruDict.max_cache self')) written /\
     (LruDict.max_cache self' < Z.of_nat (length written) ->
      LruDict.__len__ self' = LruDict.max_cache self')).
Proof.
  intros Hnz Hr.
  destruct (reachable_bounded kw self Hnz Hr) as (Hpos & Hmc & Hlen).
  destruct self as [l mc]. cbn [LruDict.items LruDict.max_cache] in *. subst mc.
  eexists. split; [apply setitem_positive; exact Hpos |].
  split.
  { eapply LruDict.reach_set; [exact Hr | apply setitem_positive; exact Hpos]. }
  unfold LruDict.__len__. cbn [LruDict.items LruDict.max_cache].
  rewrite length_drop.
  split; [reflexivity |]. split; [lia |]. split; [reflexivity | lia].
Qed.

Lemma setitem_keeps_size_within_capacity_witness :
  exists self' : LruDict.t string Z,
    LruDict.__setitem__ "c" 3 (LruDict.Self [("a", 1); ("b", 2)] 2) = (Ok tt, self') /\
    LruDict.reachable (Some 2) self' /\
    LruDict.max_cache self' = 2 /\
    LruDict.__len__ self' <= LruDict.max_cache self' /\
    (let written := LruDict.od_assign "c" 3 [("a", 1); ("b", 2)] in
     LruDict.items self'
     = drop (length written - Z.to_nat (LruDict.max_cache self')) written /\
     (LruDict.max_cache self' < Z.of_nat (length written) ->
      LruDict.__len__ self' = LruDict.max_cache self')).
Proof.
  apply (setitem_keeps_size_within_capacity (Some 2)
           (LruDict.Self [("a", 1); ("b", 2)] 2) "c" 3).
  - simpl. lia.
  - eapply (LruDict.reach_set _ _ "b" 2).
    + eapply (LruDict.reach_set _ _ "a" 1).
      * apply LruDict.reach_init. reflexivity.
      * reflexivity.
    + reflexivity.
Defined.

(** C8 fails on the code.  With [max_cache=2], write [a], write [b],
    write [a] again and then write [c]: the second write of [a] leaves
    [a] in front of [b], where a read would have moved it to the end, so
    the overflow drops [a], the key written last before, and keeps [b],
    the key used least recently.  The dictionary is called least
    recently used, and [cull] is said to remove the least recently used
    items. *)
Lemma overwritten_key_is_evicted_first :
  exists s0 s1 s2 s3 s4 : LruDict.t string Z,
    LruDict.__init__ (Some 2) = Ok s0 /\
    LruDict.__setitem__ "a" 1 s0 = (Ok tt, s1) /\
    LruDict.__setitem__ "b" 2 s1 = (Ok tt, s2) /\
    LruDict.__setitem__ "a" 9 s2 = (Ok tt, s3) /\
    LruDict.__setitem__ "c" 3 s3 = (Ok tt, s4) /\
    head (spec_recency ["a"; "b"; "a"]) = Some "b" /\
    LruDict.__contains__ "b" s4 = true /\
    LruDict.__contains__ "a" s4 = false.
Proof.
  exists (LruDict.Self [] 2), (LruDict.Self [("a", 1)] 2),
    (LruDict.Self [("a", 1); ("b", 2)] 2), (LruDict.Self [("a", 9); ("b", 2)] 2),
    (LruDict.Self [("b", 2); ("c", 3)] 2).
  repeat split; vm_compute; reflexivity.
Qed.

(** ** CIGAR strings and MD tags: proofs *)

Example parse_cigar_10M5I3D :
  parse_cigar "10M5I3D"
  = Ok [(OpTuple "BAM_CMATCH" 0, 10); (OpTuple "BAM_CINS" 1, 5);
        (OpTuple "BAM_CDEL" 2, 3)].
Proof. reflexivity. Qed.

Example cigar_changes_by_id :
  cigar_changes "ACGT" (CigarList [(OpId 0, 4)]) = Ok "ACGT" /\
  cigar_changes "ACGTGG" (CigarList [(OpId 0, 4); (OpId 1, 2)]) = Ok "ACGT" /\
  cigar_changes "ACGT" CigarOther
  = Err (ValueError "CIGAR must be string or list of tuples of cigar operations (by ID) and number of operations").
Proof. repeat split. Qed.

Example md_changes_substitution : md_changes "ACGT" "1A2" = "AAGT".
Proof. reflexivity. Qed.

Example spec_cigar_well_formed_accepts :
  spec_cigar_well_formed "10M5I3D" = true /\ spec_cigar_well_formed "4=" = true.
Proof. split; reflexivity. Qed.

Section Scanning.

Lemma greedy_more_inv {A} (p : ascii -> bool) (s : list ascii)
    (g : Re.groups) (k : Re.cont A) (x : A) :
  Re.greedy_more p s g k = Some x -> exists s1, k s1 g = Some x.
Proof.
  induction s as [| c s IH]; cbn; [eauto |].
  destruct (p c); [| eauto].
  destruct (Re.greedy_more p s g k) as [y |] eqn:Hy; [| eauto].
  intros [= <-]. apply IH. reflexivity.
Qed.

Lemma cigar_match_groups (s : list ascii) (m : Re.match_object) :
  Re.match_at cigar_re s = Some m -> both_groups m.
Proof.
  unfold Re.match_at, cigar_re. cbn [Re.run].
  destruct s as [| c s]; [discriminate |].
  destruct (Re.digit c); [| discriminate].
  intros Hm. apply greedy_more_inv in Hm. destruct Hm as [s1 Hm].
  destruct s1 as [| c1 s1]; [discriminate |].
  destruct (Re.word c1); [| discriminate].
  injection Hm as <-. unfold both_groups. cbn. eauto.
Qed.

Lemma finditer_from_Forall (r : Re.pattern) (P : Re.match_object -> Prop) :
  (forall s m, Re.match_at r s = Some m -> P m) ->
  forall s skip, Forall P (Re.finditer_from r skip s).
Proof.
  intros HP s. induction s as [| c s IH]; intros skip; cbn [Re.finditer_from].
  - constructor.
  - destruct skip as [| n]; [| apply IH].
    destruct (Re.match_at r (c :: s)) as [m |] eqn:Hm; [| apply IH].
    constructor; [eapply HP; eassumption | apply IH].
Qed.

Lemma cigar_entry_both_groups (m : Re.match_object) :
  both_groups m ->
  exists n_op op,
    Re.group m "op" = Some op /\
    cigar_entry m =
      match dict_get _CIGAR_OPS op with
      | Some (name, id) => Ok (OpTuple name id, int n_op)
      | None => Err (KeyError op)
      end.
Proof.
  intros (n_op & op & Hg). exists n_op, op.
  unfold cigar_entry, group_text, Re.group. rewrite Hg. cbn. auto.
Qed.

Lemma cigar_entry_tuple (m : Re.match_object) (entry : op_value * Z) :
  cigar_entry m = Ok entry -> is_tuple entry.
Proof.
  unfold cigar_entry, result_bind.
  destruct (group_text m "n_op"); [| discriminate].
  destruct (group_text m "op") as [key |]; [| discriminate].
  destruct (dict_get _CIGAR_OPS key) as [[name id] |]; [| discriminate].
  intros [= <-]. exact I.
Qed.

Lemma parse_cigar_loop_raises (ms : list Re.match_object)
    (acc : list (op_value * Z)) :
  Forall both_groups ms ->
  (raises (parse_cigar_loop ms acc) <-> Exists unknown_op ms) /\
  (forall e, parse_cigar_loop ms acc = Err e -> exists key, e = KeyError key).
Proof.
  intros Hall. revert acc.
  induction Hall as [| m ms Hm Hall IH]; intros acc; cbn [parse_cigar_loop].
  - split; [split |].
    + intros [e He]. discriminate He.
    + intros Hex. inversion Hex.
    + intros e He. discriminate He.
  - destruct (cigar_entry_both_groups m Hm) as (n_op & op & Hop & Hentry).
    rewrite Hentry. rewrite Exists_cons.
    destruct (dict_get _CIGAR_OPS op) as [[name id] |] eqn:Hd; cbn [result_bind].
    + destruct (IH (acc ++ [(OpTuple name id, int n_op)])) as [Hiff Herr].
      split; [| exact Herr]. rewrite Hiff. split; [tauto |].
      intros [(key & Hkey & Hnone) | Hex]; [| exact Hex].
      rewrite Hop in Hkey. injection Hkey as <-. congruence.
    + split; [split |].
      * intros _. left. exists op. auto.
      * intros _. eexists. reflexivity.
      * intros e [= <-]. eauto.
Qed.

Lemma parse_cigar_loop_ok (ms : list Re.match_object)
    (acc cigar : list (op_value * Z)) :
  parse_cigar_loop ms acc = Ok cigar ->
  Forall is_tuple acc ->
  Forall is_tuple cigar /\ length cigar = (length acc + length ms)%nat.
Proof.
  revert acc. induction ms as [| m ms IH]; intros acc; cbn [parse_cigar_loop].
  - intros [= <-] Hacc. split; [exact Hacc | cbn; lia].
  - destruct (cigar_entry m) as [entry |] eqn:Hentry; cbn [result_bind];
      [| discriminate].
    intros Hloop Hacc. apply IH in Hloop.
    + destruct Hloop as [Ht Hlen]. split; [exact Ht |].
      rewrite Hlen, length_app. cbn. lia.
    + apply Forall_app. split; [exact Hacc |].
      constructor; [| constructor]. eapply cigar_entry_tuple, Hentry.
Qed.

Lemma cigar_changes_loop_tuple (seq : string) (cigar : list (op_value * Z))
    (ref : string) (pos : Z) :
  cigar <> [] -> Forall is_tuple cigar ->
  cigar_changes_loop seq cigar ref pos = Err (ValueError "Invalid CIGAR string").
Proof.
  intros Hne Hall. destruct Hall as [| [op n_ops] cigar Hop _]; [congruence |].
  destruct op as [id | name id]; [destruct Hop |]. reflexivity.
Qed.

End Scanning.

(** C1 fails on the code.  A Skip operation reads the local
    [tmp_ref_seq], which is never assigned, so the call stops with an
    [UnboundLocalError]; a Deletion, Pad or Back operation reaches the
    last branch and raises [ValueError].  No placeholder is appended in
    either case, whatever the sequence and the length. *)
Theorem cigar_changes_skip_deletion_raise (seq : string) (n : Z) :
  cigar_changes seq (CigarList [(OpId 3, n)]) = Err (UnboundLocalError "tmp_ref_seq") /\
  cigar_changes seq (CigarList [(OpId 2, n)]) = Err (ValueError "Invalid CIGAR string") /\
  cigar_changes seq (CigarList [(OpId 6, n)]) = Err (ValueError "Invalid CIGAR string") /\
  cigar_changes seq (CigarList [(OpId 9, n)]) = Err (ValueError "Invalid CIGAR string") /\
  cigar_changes "ACGT" (CigarList [(OpId 0, 2); (OpId 3, 2); (OpId 0, 2)])
    = Err (UnboundLocalError "tmp_ref_seq").
Proof. repeat split. Qed.

(** C2 fails on the code.  The deletion group [\^\w+?] is lazy and ends
    the pattern, so it takes one letter only; the letters after it are
    read as substitutions, each of which moves the query cursor.  For the
    sequence [ACGT] and the tag [2^NN2] the result is [ACNNT], not
    [ACNNGT]; a deletion of a single letter is handled as described. *)
Theorem md_changes_deletion_takes_one_letter :
  md_changes "ACGT" "2^NN2" = "ACNNT" /\
  map Re.groupdict (Re.finditer md_re "2^NN2")
    = [[("matches", "2")]; [("del", "^N")]; [("sub", "N")]; [("matches", "2")]] /\
  md_changes "ACGT" "2^N2" = "ACNGT".
Proof. repeat split. Qed.

(** C6, as the code has it: [parse_cigar] raises exactly when one of the
    tokens that the scan for [\d+\w] finds has a character that is not a
    key of [_CIGAR_OPS], and what it raises is then a [KeyError]; so
    [parse_cigar("10Q")] raises.  Text outside the tokens is passed over. *)
Theorem parse_cigar_raises_iff_unknown_op :
  (forall cigar_str : string,
      (raises (parse_cigar cigar_str) <->
       Exists unknown_op (Re.finditer cigar_re cigar_str)) /\
      (forall e, parse_cigar cigar_str = Err e -> exists key, e = KeyError key)) /\
  parse_cigar "10Q" = Err (KeyError "Q").
Proof.
  split; [| reflexivity].
  intros cigar_str. unfold parse_cigar. apply parse_cigar_loop_raises.
  apply finditer_from_Forall. exact cigar_match_groups.
Qed.

(** C6 fails for text that is not a sequence of tokens: a character
    outside a token, or a letter with no digits before it, is passed over
    and the parser returns a list. *)
Lemma parse_cigar_passes_over_stray_text :
  spec_cigar_well_formed "M10M" = false /\
  parse_cigar "M10M" = Ok [(OpTuple "BAM_CMATCH" 0, 10)] /\
  spec_cigar_well_formed "10M?5I" = false /\
  parse_cigar "10M?5I" = Ok [(OpTuple "BAM_CMATCH" 0, 10); (OpTuple "BAM_CINS" 1, 5)] /\
  spec_cigar_well_formed "M" = false /\
  parse_cigar "M" = Ok [].
Proof. repeat split. Qed.

(** X23: when [parse_cigar] returns a list for a text in which the scan
    finds at least one token, [cigar_changes] raises [ValueError] both
    for the text and for that list, because every operation in the list
    is a [(name, id)] tuple and no branch of [cigar_changes] matches a
    tuple. *)
Theorem cigar_changes_of_parsed_raises (seq cigar_str : string)
    (cigar : list (op_value * Z)) :
  parse_cigar cigar_str = Ok cigar ->
  Re.finditer cigar_re cigar_str <> [] ->
  cigar_changes seq (CigarStr cigar_str) = Err (ValueError "Invalid CIGAR string") /\
  cigar_changes seq (CigarList cigar) = Err (ValueError "Invalid CIGAR string").
Proof.
  intros Hparse Hne.
  destruct (parse_cigar_loop_ok _ [] cigar Hparse) as [Htuples Hlen];
    [constructor |].
  assert (Hcigar : cigar <> []).
  { intros ->. cbn in Hlen. destruct (Re.finditer cigar_re cigar_str);
      [congruence | discriminate Hlen]. }
  unfold cigar_changes. rewrite Hparse. cbn [result_bind].
  split; apply cigar_changes_loop_tuple; assumption.
Qed.

Lemma cigar_changes_of_parsed_raises_witness :
  cigar_changes "ACGT" (CigarStr "4M") = Err (ValueError "Invalid CIGAR string") /\
  cigar_changes "ACGT" (CigarList [(OpTuple "BAM_CMATCH" 0, 4)])
    = Err (ValueError "Invalid CIGAR string").
Proof.
  apply (cigar_changes_of_parsed_raises "ACGT" "4M" [(OpTuple "BAM_CMATCH" 0, 4)]).
  - reflexivity.
  - vm_compute. discriminate.
Defined.

(** C10 fails on the code.  [cigar_changes] is said to raise
    [ValueError] when the CIGAR string is invalid, but for ["10Q"], where
    the scan finds a token, the call stops in [parse_cigar] with a
    [KeyError]; and for ["4="], a token of the Equal operation, the scan
    finds nothing, since [=] is no word character, and the call returns
    the empty text without raising. *)
Lemma cigar_changes_of_text_other_outcomes :
  Re.finditer cigar_re "10Q" <> [] /\
  cigar_changes "ACGT" (CigarStr "10Q") = Err (KeyError "Q") /\
  is_ValueError (KeyError "Q") = false /\
  cigar_changes "ACGT" (CigarStr "4=") = Ok "".
Proof. repeat split. vm_compute. discriminate. Qed.


(** ** Virtual offsets: further properties *)

Lemma split_virtual_offset_eq (v : Z) :
  split_virtual_offset v = (v / 65536, v mod 65536).
Proof.
  assert (Hr : 0 <= v mod 65536 < 65536) by (apply Z.mod_pos_bound; lia).
  pose proof (split_of_sum (v / 65536) (v mod 65536) Hr) as Hs.
  replace (v / 65536 * 65536 + v mod 65536) with v in Hs
    by (pose proof (Z.div_mod v 65536); lia).
  exact Hs.
Qed.

Lemma make_virtual_offset_ok_inv (b w v : Z) :
  make_virtual_offset b w = Ok v ->
  0 <= b < 281474976710656 /\ 0 <= w < 65536 /\ v = b * 65536 + w.
Proof.
  unfold make_virtual_offset.
  destruct (Z.ltb_spec w 0); [discriminate |].
  destruct (Z.geb_spec w 65536); [discriminate |].
  destruct (Z.ltb_spec b 0); [discriminate |].
  destruct (Z.geb_spec b 281474976710656); [discriminate |].
  cbn. intros [= <-]. rewrite pack_as_sum by lia. lia.
Qed.

(** X1: [split_virtual_offset] is defined on every integer, negative ones
    included: the block start is the quotient by 2^16 rounded down and the
    offset within the block is the remainder, which lies in [0, 2^16). *)
Theorem split_virtual_offset_div_mod (v : Z) :
  split_virtual_offset v = (v / 2 ^ 16, v mod 2 ^ 16) /\
  0 <= snd (split_virtual_offset v) < 2 ^ 16.
Proof.
  change (2 ^ 16) with 65536. rewrite split_virtual_offset_eq. split; [reflexivity |].
  cbn. apply Z.mod_pos_bound. lia.
Qed.

(** X2: every 64-bit value is a virtual offset: splitting it and packing
    the two parts again gives the value back. *)
Theorem make_split_virtual_offset (v : Z) :
  0 <= v < 2 ^ 64 ->
  make_virtual_offset (fst (split_virtual_offset v)) (snd (split_virtual_offset v))
  = Ok v.
Proof.
  intros Hv. rewrite split_virtual_offset_eq. cbn [fst snd].
  change (2 ^ 64) with 18446744073709551616 in Hv.
  pose proof (Z.div_mod v 65536 ltac:(lia)) as Hdm.
  pose proof (Z.mod_pos_bound v 65536 ltac:(lia)) as Hm.
  rewrite make_virtual_offset_in_range.
  - f_equal. lia.
  - change (2 ^ 48) with 281474976710656. split.
    + apply Z.div_pos; lia.
    + apply Z.div_lt_upper_bound; lia.
  - change (2 ^ 16) with 65536. exact Hm.
Qed.

Lemma make_split_virtual_offset_witness :
  make_virtual_offset (fst (split_virtual_offset 6553600010))
                      (snd (split_virtual_offset 6553600010))
  = Ok 6553600010.
Proof. apply (make_split_virtual_offset 6553600010). simpl. lia. Defined.

(** X3: two pairs that [make_virtual_offset] packs into the same offset
    are the same pair. *)
Theorem make_virtual_offset_injective (b1 w1 b2 w2 v : Z) :
  make_virtual_offset b1 w1 = Ok v ->
  make_virtual_offset b2 w2 = Ok v ->
  b1 = b2 /\ w1 = w2.
Proof.
  intros H1 H2.
  apply make_virtual_offset_ok_inv in H1. apply make_virtual_offset_ok_inv in H2.
  lia.
Qed.

Lemma make_virtual_offset_injective_witness : 100000 = 100000 /\ 10 = 10.
Proof.
  apply (make_virtual_offset_injective 100000 10 100000 10 6553600010);
    reflexivity.
Defined.

(** X4: an offset returned by [make_virtual_offset] fits in 64 unsigned
    bits. *)
Theorem make_virtual_offset_fits_64_bits (b w v : Z) :
  make_virtual_offset b w = Ok v -> 0 <= v < 2 ^ 64.
Proof.
  intros Hv. apply make_virtual_offset_ok_inv in Hv.
  change (2 ^ 64) with 18446744073709551616. lia.
Qed.

Lemma make_virtual_offset_fits_64_bits_witness :
  0 <= 18446744073709551615 < 2 ^ 64.
Proof.
  apply (make_virtual_offset_fits_64_bits 281474976710655 65535). reflexivity.
Defined.

(** ** [ceildiv] and [flag_decode] *)

(** X5: for a denominator other than zero [ceildiv] returns the quotient
    rounded up: the least [q] with [b * q >= a] when [b] is positive, and
    the mirrored bounds when [b] is negative. *)
Theorem ceildiv_rounds_up (a b : Z) :
  b <> 0 ->
  exists q,
    ceildiv a b = Some q /\
    (0 < b -> b * (q - 1) < a <= b * q) /\
    (b < 0 -> b * q <= a < b * (q - 1)).
Proof.
  intros Hb. unfold ceildiv.
  destruct (Z.eqb_spec b 0) as [-> | _]; [congruence |].
  eexists. split; [reflexivity |].
  pose proof (Z.div_mod (- a) b Hb) as Hdm.
  split; intros Hs.
  - pose proof (Z.mod_pos_bound (- a) b Hs). nia.
  - pose proof (Z.mod_neg_bound (- a) b Hs). nia.
Qed.

Lemma ceildiv_rounds_up_witness :
  exists q,
    ceildiv 7 2 = Some q /\
    (0 < 2 -> 2 * (q - 1) < 7 <= 2 * q) /\
    (2 < 0 -> 2 * q <= 7 < 2 * (q - 1)).
Proof. apply (ceildiv_rounds_up 7 2). lia. Defined.

Lemma filter_ext_Forall {A : Type} (P Q : A -> Prop)
    `{forall x, Decision (P x)} `{forall x, Decision (Q x)} (l : list A) :
  Forall (fun x => P x <-> Q x) l -> filter P l = filter Q l.
Proof.
  induction 1 as [| x l Hx _ IH]; [reflexivity |].
  rewrite !filter_cons. rewrite IH.
  destruct (decide (P x)) as [Hp | Hp]; destruct (decide (Q x)) as [Hq | Hq];
    tauto.
Qed.

Lemma land_low_bits (k code : Z) :
  Z.land k 4095 = k -> Z.land k (Z.land code 4095) = Z.land k code.
Proof.
  intros Hk. rewrite (Z.land_comm code 4095), Z.land_assoc, Hk. reflexivity.
Qed.

Lemma flag_filter_low_bits (code : Z) :
  filter (fun entry : Z * string => Z.land entry.1 code <> 0) flags
  = filter (fun entry : Z * string => Z.land entry.1 (Z.land code 4095) <> 0) flags.
Proof.
  apply filter_ext_Forall. unfold flags.
  repeat constructor; cbn [fst]; rewrite land_low_bits by reflexivity; tauto.
Qed.

Lemma flag_keys_add_up_below_4096 (c : Z) :
  0 <= c < 4096 -> flag_keys_add_up c = true.
Proof.
  intros Hc.
  assert (Hall : forallb (fun n => flag_keys_add_up (Z.of_nat n)) (seq 0 4096) = true)
    by (vm_compute; reflexivity).
  rewrite forallb_forall in Hall.
  specialize (Hall (Z.to_nat c)). rewrite Z2Nat.id in Hall by lia.
  apply Hall. apply in_seq. lia.
Qed.

(** X6: [flag_decode] reads the twelve low bits of the flag only, for an
    integer and for a read object alike: the keys of the entries it
    returns add up to [code & 0xFFF], so a flag below 4096 is the sum of
    the keys decoded from it, and the entries come from the table. *)
Theorem flag_decode_keys_add_up (code : Z) :
  exists l,
    flag_decode (FlagInt code) = Ok l /\
    flag_decode (FlagOf (Some code)) = Ok l /\
    sum_list l.*1 = Z.land code 4095 /\
    l ⊆ flags.
Proof.
  eexists. split; [reflexivity |]. split; [reflexivity |]. split.
  - rewrite flag_filter_low_bits.
    assert (Hr : 0 <= Z.land code 4095 < 4096).
    { change 4095 with (Z.ones 12). rewrite Z.land_ones by lia.
      apply Z.mod_pos_bound. lia. }
    pose proof (flag_keys_add_up_below_4096 _ Hr) as Hs.
    unfold flag_keys_add_up in Hs. apply Z.eqb_eq in Hs. exact Hs.
  - intros entry Hin. apply list_elem_of_filter in Hin. tauto.
Qed.

(** ** [LruDict]: further properties *)

Section LruDictMore.
Context {K V : Type} `{EqDecision K}.
Import LruDict.

Implicit Types (l : list (K * V)) (key : K) (value : V) (self : t K V).

Lemma cull_keep_id l (mc : Z) :
  mc = 0 \/ (length l <= Z.to_nat mc)%nat -> cull_keep mc l = l.
Proof.
  intros Hc. unfold cull_keep. case_bool_decide as Hz; [reflexivity |].
  destruct Hc as [? | Hlen]; [congruence |].
  replace (length l - Z.to_nat mc)%nat with 0%nat by lia. reflexivity.
Qed.

Lemma cull_general l (mc : Z) :
  0 <= mc -> cull (Self l mc) = (Ok tt, Self (cull_keep mc l) mc).
Proof.
  intros Hmc. unfold cull_keep. case_bool_decide as Hz.
  - subst mc. apply cull_unbounded.
  - apply cull_positive. lia.
Qed.

Lemma setitem_general key value l (mc : Z) :
  0 <= mc ->
  __setitem__ key value (Self l mc)
  = (Ok tt, Self (cull_keep mc (od_assign key value l)) mc).
Proof. intros Hmc. unfold __setitem__, bind. cbn. apply cull_general, Hmc. Qed.

Lemma od_assign_present key value l :
  key ∈ l.*1 ->
  (od_assign key value l).*1 = l.*1 /\
  length (od_assign key value l) = length l.
Proof.
  induction l as [| [k v] l IH]; cbn; intros Hin; [inversion Hin |].
  case_decide as Hk; cbn; [auto |].
  apply elem_of_cons in Hin. destruct Hin as [Heq | Hin]; [congruence |].
  destruct (IH Hin) as [Hkeys Hlen]. rewrite Hkeys, Hlen. auto.
Qed.

Lemma od_lookup_assign key value l :
  od_lookup key (od_assign key value l) = Some value.
Proof.
  induction l as [| [k v] l IH]; cbn.
  - rewrite decide_True by reflexivity. reflexivity.
  - case_decide as Hk; cbn.
    + rewrite decide_True by assumption. reflexivity.
    + rewrite decide_False by assumption. exact IH.
Qed.

Lemma od_lookup_app_fresh key (l1 l2 : list (K * V)) :
  key ∉ l1.*1 -> od_lookup key (l1 ++ l2) = od_lookup key l2.
Proof.
  induction l1 as [| [k v] l1 IH]; cbn; intros Hnot; [reflexivity |].
  rewrite not_elem_of_cons in Hnot. destruct Hnot as [Hne Hnot].
  rewrite decide_False by congruence. apply IH, Hnot.
Qed.

Lemma NoDup_od_assign key value l :
  NoDup l.*1 -> NoDup (od_assign key value l).*1.
Proof.
  intros Hnd. destruct (decide (key ∈ l.*1)) as [Hin | Hnot].
  - destruct (od_assign_present key value l Hin) as [-> _]. exact Hnd.
  - rewrite od_assign_fresh by assumption. rewrite fmap_app. cbn.
    apply NoDup_app. split; [exact Hnd |]. split; [| apply NoDup_singleton].
    intros x Hx Hx'. apply list_elem_of_singleton in Hx'. congruence.
Qed.

Lemma NoDup_cull_keep l (mc : Z) : NoDup l.*1 -> NoDup (cull_keep mc l).*1.
Proof.
  intros Hnd. unfold cull_keep. case_bool_decide; [exact Hnd |].
  rewrite fmap_drop. eapply sublist_NoDup; [exact Hnd | apply sublist_drop].
Qed.

Lemma length_cull_keep l (mc : Z) :
  0 <= mc -> mc = 0 \/ (length (cull_keep mc l) <= Z.to_nat mc)%nat.
Proof.
  intros Hmc. unfold cull_keep. case_bool_decide; [auto | right].
  rewrite length_drop. lia.
Qed.

Lemma NoDup_moved key l v :
  NoDup l.*1 -> NoDup (od_remove key l ++ [(key, v)]).*1.
Proof.
  intros Hnd. rewrite fmap_app. cbn. apply NoDup_app.
  split; [| split; [| apply NoDup_singleton]].
  - eapply sublist_NoDup; [exact Hnd |].
    apply fmap_sublist. unfold od_remove. apply sublist_filter.
  - intros x Hx Hx'. apply list_elem_of_singleton in Hx'. subst x.
    exact (od_remove_fresh key l Hx).
Qed.

Lemma od_remove_id key l : key ∉ l.*1 -> od_remove key l = l.
Proof.
  unfold od_remove. induction l as [| [k v] l IH]; intros Hnot; [reflexivity |].
  cbn in Hnot. rewrite not_elem_of_cons in Hnot. destruct Hnot as [Hne Hnot].
  rewrite filter_cons_True by (cbn; congruence). f_equal. apply IH, Hnot.
Qed.

(** Moving the key that is last already changes nothing. *)
Lemma moved_last key l v :
  NoDup l.*1 -> last (l.*1) = Some key -> od_lookup key l = Some v ->
  od_remove key l ++ [(key, v)] = l.
Proof.
  intros Hnd Hlast Hl. rewrite fmap_last in Hlast.
  destruct (last l) as [[k v'] |] eqn:Hll; [| discriminate].
  cbn in Hlast. injection Hlast as ->.
  apply last_Some in Hll. destruct Hll as [l0 ->].
  rewrite fmap_app in Hnd. apply NoDup_app in Hnd.
  destruct Hnd as (_ & Hdisj & _).
  assert (Hfresh : key ∉ l0.*1).
  { intros Hin. apply (Hdisj key Hin). cbn. left. }
  rewrite od_lookup_app_fresh in Hl by assumption. cbn in Hl.
  rewrite decide_True in Hl by reflexivity. injection Hl as ->.
  unfold od_remove. rewrite filter_app.
  fold (od_remove key l0). rewrite od_remove_id by assumption.
  rewrite filter_cons_False by (cbn; tauto). rewrite filter_nil.
  rewrite app_nil_r. reflexivity.
Qed.

Lemma getitem_miss (legacy : bool) key self :
  od_lookup key (items self) = None ->
  __getitem__ legacy key self = (Ok None, self).
Proof.
  intros Hl. destruct self as [l mc]. cbn [items] in Hl.
  unfold __getitem__, try_except_KeyError, bind, OrderedDict_getitem, get_items.
  cbn. rewrite Hl. reflexivity.
Qed.

Lemma getitem_hit (legacy : bool) key l (mc : Z) v :
  0 <= mc -> NoDup l.*1 -> mc = 0 \/ (length l <= Z.to_nat mc)%nat ->
  od_lookup key l = Some v ->
  __getitem__ legacy key (Self l mc)
  = (Ok (Some v), Self (od_remove key l ++ [(key, v)]) mc).
Proof.
  intros Hmc Hnd Hlen Hl.
  unfold __getitem__, try_except_KeyError, bind, OrderedDict_getitem,
    move_to_end, pop, get_items. cbn -[__setitem__ od_remove]. rewrite Hl.
  cbn -[__setitem__ od_remove].
  destruct legacy; cbn -[__setitem__ od_remove].
  - case_bool_decide as Hlast; cbn -[__setitem__ od_remove].
    + rewrite Hl. cbn -[__setitem__ od_remove].
      rewrite setitem_general by assumption.
      rewrite od_assign_fresh by apply od_remove_fresh.
      rewrite cull_keep_id; [reflexivity |].
      destruct Hlen as [? | Hlen]; [auto | right].
      pose proof (od_remove_length key l v Hl). rewrite length_app. cbn. lia.
    + assert (Hk : last (l.*1) = Some key).
      { destruct (decide (Some key = last l.*1)) as [Heq | Hne]; [auto | tauto]. }
      rewrite moved_last by assumption. reflexivity.
  - rewrite Hl. reflexivity.
Qed.

Lemma init_cases (kw : option Z) self :
  __init__ kw = Ok self ->
  0 <= default 128 kw /\ self = Self [] (default 128 kw).
Proof.
  destruct (decide (default 128 kw = 0)) as [Hz | Hnz].
  - unfold __init__. rewrite Hz, cull_unbounded. intros [= <-]. split; [lia | reflexivity].
  - intros Hinit. destruct (init_positive kw self Hnz Hinit) as [Hpos ->].
    split; [lia | reflexivity].
Qed.

(** The facts that hold of every dictionary a program can hold. *)
Lemma reachable_inv (kw : option Z) self :
  reachable kw self ->
  0 <= max_cache self /\ max_cache self = default 128 kw /\
  NoDup (items self).*1 /\
  (max_cache self = 0 \/ (length (items self) <= Z.to_nat (max_cache self))%nat).
Proof.
  intros Hr. induction Hr as
      [self Hinit
      | self key value r self' Hr IH Hset
      | self legacy key r self' Hr IH Hget].
  - destruct (init_cases kw self Hinit) as [Hpos ->]. cbn.
    repeat split; [exact Hpos | constructor | right; lia].
  - destruct IH as (Hpos & Hmc & Hnd & Hlen). destruct self as [l mc].
    cbn [items max_cache] in *.
    rewrite setitem_general in Hset by assumption.
    injection Hset as <- <-. cbn [items max_cache].
    repeat split; try assumption.
    + apply NoDup_cull_keep, NoDup_od_assign, Hnd.
    + apply length_cull_keep, Hpos.
  - destruct IH as (Hpos & Hmc & Hnd & Hlen). destruct self as [l mc].
    cbn [items max_cache] in *.
    destruct (od_lookup key l) as [v |] eqn:Hl.
    + rewrite (getitem_hit legacy key l mc v) in Hget by assumption.
      injection Hget as <- <-. cbn [items max_cache].
      repeat split; try assumption.
      * apply NoDup_moved, Hnd.
      * destruct Hlen as [? | Hlen]; [auto | right].
        pose proof (od_remove_length key l v Hl). rewrite length_app. cbn. lia.
    + rewrite getitem_miss in Hget by exact Hl.
      injection Hget as <- <-. cbn [items max_cache]. auto.
Qed.

Lemma lookup_after_assign key value l (mc : Z) :
  0 <= mc -> mc = 0 \/ (length l <= Z.to_nat mc)%nat ->
  od_lookup key (cull_keep mc (od_assign key value l)) = Some value.
Proof.
  intros Hmc Hlen. destruct (decide (key ∈ l.*1)) as [Hin | Hnot].
  - destruct (od_assign_present key value l Hin) as [_ Hsame].
    rewrite cull_keep_id by (rewrite Hsame; exact Hlen).
    apply od_lookup_assign.
  - rewrite od_assign_fresh by assumption. unfold cull_keep.
    case_bool_decide as Hz.
    + rewrite od_lookup_app_fresh by assumption. cbn.
      rewrite decide_True by reflexivity. reflexivity.
    + destruct Hlen as [? | Hlen]; [congruence |].
      rewrite length_app. cbn [length].
      rewrite drop_app_le by lia.
      rewrite od_lookup_app_fresh.
      * cbn. rewrite decide_True by reflexivity. reflexivity.
      * intros Hin. apply Hnot. rewrite fmap_drop in Hin.
        eapply subseteq_drop, Hin.
Qed.

Lemma put_all_bounded (kvs l : list (K * V)) (mc : Z) :
  0 < mc -> (length l <= Z.to_nat mc)%nat -> NoDup (l ++ kvs).*1 ->
  put_all kvs (Self l mc)
  = (Ok tt, Self (drop (length (l ++ kvs) - Z.to_nat mc) (l ++ kvs)) mc).
Proof.
  intros Hmc. revert l. induction kvs as [| [k v] kvs IH]; intros l Hlen Hnd.
  - rewrite app_nil_r.
    replace (length l - Z.to_nat mc)%nat with 0%nat by lia. reflexivity.
  - cbn [put_all]. unfold bind. rewrite setitem_positive by assumption.
    assert (Hfresh : k ∉ l.*1).
    { rewrite fmap_app in Hnd. apply NoDup_app in Hnd.
      destruct Hnd as (_ & Hdisj & _). intros Hin.
      apply (Hdisj k Hin). cbn. left. }
    rewrite od_assign_fresh by assumption.
    set (d := (length (l ++ [(k, v)]) - Z.to_nat mc)%nat).
    assert (Hd : (d <= length (l ++ [(k, v)]))%nat) by (unfold d; lia).
    rewrite IH.
    + rewrite <- drop_app_le by exact Hd. rewrite drop_drop.
      rewrite <- app_assoc. cbn [app]. f_equal. f_equal. f_equal.
      rewrite length_drop. unfold d.
      rewrite !length_app. cbn [length]. lia.
    + rewrite length_drop. unfold d. lia.
    + rewrite <- drop_app_le by exact Hd. rewrite <- app_assoc. cbn [app].
      rewrite fmap_drop. eapply sublist_NoDup; [exact Hnd | apply sublist_drop].
Qed.

End LruDictMore.

(** X7: a dictionary cannot be built with a negative [max_cache]: the
    constructor calls [cull], which pops from the empty dictionary and
    raises [KeyError]. *)
Theorem init_negative_capacity_raises {K V : Type} `{EqDecision K} (mc : Z) :
  mc < 0 ->
  LruDict.__init__ (K := K) (V := V) (Some mc)
  = Err (KeyError "dictionary is empty").
Proof.
  intros Hneg. unfold LruDict.__init__. change (default 128 (Some mc)) with mc.
  unfold LruDict.cull, LruDict.bind, LruDict.get_max_cache, LruDict.get_items.
  cbv beta iota. cbn [LruDict.max_cache]. rewrite bool_decide_eq_true_2 by lia.
  cbv beta. cbn [LruDict.items length].
  rewrite bool_decide_eq_true_2 by lia.
  destruct (Z.to_nat (Z.max 0 (Z.of_nat 0 - mc))) as [| n] eqn:Hn; [lia |].
  reflexivity.
Qed.

Lemma init_negative_capacity_raises_witness :
  LruDict.__init__ (K := string) (V := Z) (Some (-1))
  = Err (KeyError "dictionary is empty").
Proof. apply (init_negative_capacity_raises (-1)). lia. Defined.

(** X8: reading a key that is not stored raises nothing: [__getitem__]
    swallows the [KeyError], returns [None] and leaves the dictionary as
    it was, on both branches of the version test. *)
Theorem getitem_missing_key_returns_None {K V : Type} `{EqDecision K}
    (legacy : bool) (key : K) (self : LruDict.t K V) :
  LruDict.__contains__ key self = false ->
  LruDict.__getitem__ legacy key self = (Ok None, self).
Proof.
  intros Hc. apply getitem_miss. unfold LruDict.__contains__ in Hc.
  apply bool_decide_eq_false_1 in Hc.
  destruct (LruDict.od_lookup key (LruDict.items self)) as [v |]; [| reflexivity].
  exfalso. apply Hc. eauto.
Qed.

Lemma getitem_missing_key_returns_None_witness :
  LruDict.__getitem__ true "z" (LruDict.Self [("a", 1); ("b", 2)] 2)
  = (Ok None, LruDict.Self [("a", 1); ("b", 2)] 2).
Proof.
  apply (getitem_missing_key_returns_None true "z"
           (LruDict.Self [("a", 1); ("b", 2)] 2)).
  reflexivity.
Defined.

(** X9: on every dictionary a program can hold, reading a stored key
    returns its value and moves its entry to the end; the other entries
    keep their order.  The two branches of the version test end in the
    same dictionary. *)
Theorem getitem_moves_key_to_end {K V : Type} `{EqDecision K}
    (kw : option Z) (self : LruDict.t K V) (legacy : bool) (key : K) (v : V) :
  LruDict.reachable kw self ->
  LruDict.od_lookup key (LruDict.items self) = Some v ->
  LruDict.__getitem__ legacy key self
  = (Ok (Some v),
     LruDict.Self (filter (fun kv => kv.1 <> key) (LruDict.items self) ++ [(key, v)])
                  (LruDict.max_cache self)).
Proof.
  intros Hr Hl. destruct (reachable_inv kw self Hr) as (Hpos & _ & Hnd & Hlen).
  destruct self as [l mc]. cbn [LruDict.items LruDict.max_cache] in *.
  apply getitem_hit; assumption.
Qed.

Lemma getitem_moves_key_to_end_witness :
  LruDict.__getitem__ true "a" (LruDict.Self [("a", 1); ("b", 2)] 2)
  = (Ok (Some 1),
     LruDict.Self (filter (fun kv => kv.1 <> "a") [("a", 1); ("b", 2)] ++ [("a", 1)]) 2).
Proof.
  apply (getitem_moves_key_to_end (Some 2)
           (LruDict.Self [("a", 1); ("b", 2)] 2) true "a" 1).
  - eapply (LruDict.reach_set _ _ "b" 2).
    + eapply (LruDict.reach_set _ _ "a" 1).
      * apply LruDict.reach_init. reflexivity.
      * reflexivity.
    + reflexivity.
  - reflexivity.
Defined.

(** X10: on every dictionary a program can hold, a value that has just
    been written is stored and is the value read back, whatever had to be
    evicted to make room. *)
Theorem setitem_then_getitem {K V : Type} `{EqDecision K}
    (kw : option Z) (self : LruDict.t K V) (legacy : bool) (key : K) (value : V) :
  LruDict.reachable kw self ->
  exists self' self'' : LruDict.t K V,
    LruDict.__setitem__ key value self = (Ok tt, self') /\
    LruDict.__contains__ key self' = true /\
    LruDict.__getitem__ legacy key self' = (Ok (Some value), self'').
Proof.
  intros Hr. destruct (reachable_inv kw self Hr) as (Hpos & Hmc & Hnd & Hlen).
  destruct self as [l mc]. cbn [LruDict.items LruDict.max_cache] in *.
  pose proof (setitem_general key value l mc Hpos) as Hset.
  pose proof (lookup_after_assign key value l mc Hpos Hlen) as Hl.
  assert (Hr' : LruDict.reachable kw
                  (LruDict.Self (cull_keep mc (LruDict.od_assign key value l)) mc))
    by (eapply LruDict.reach_set; eassumption).
  destruct (reachable_inv kw _ Hr') as (_ & _ & Hnd' & Hlen').
  cbn [LruDict.items LruDict.max_cache] in *.
  eexists. eexists. split; [exact Hset |]. split.
  - unfold LruDict.__contains__. cbn [LruDict.items]. rewrite Hl.
    apply bool_decide_eq_true_2. eauto.
  - apply getitem_hit; assumption.
Qed.

Lemma setitem_then_getitem_witness :
  exists self' self'' : LruDict.t string Z,
    LruDict.__setitem__ "c" 3 (LruDict.Self [("a", 1); ("b", 2)] 2) = (Ok tt, self') /\
    LruDict.__contains__ "c" self' = true /\
    LruDict.__getitem__ false "c" self' = (Ok (Some 3), self'').
Proof.
  apply (setitem_then_getitem (Some 2) (LruDict.Self [("a", 1); ("b", 2)] 2)
           false "c" 3).
  eapply (LruDict.reach_set _ _ "b" 2).
  - eapply (LruDict.reach_set _ _ "a" 1).
    + apply LruDict.reach_init. reflexivity.
    + reflexivity.
  - reflexivity.
Defined.

(** X11: on every dictionary a program can hold, writing a key that is
    stored already replaces its value where it stands: nothing is
    evicted and the order of the keys is unchanged, so the write does not
    renew the key. *)
Theorem setitem_overwrite_keeps_order {K V : Type} `{EqDecision K}
    (kw : option Z) (self : LruDict.t K V) (key : K) (value : V) :
  LruDict.reachable kw self ->
  LruDict.__contains__ key self = true ->
  exists self' : LruDict.t K V,
    LruDict.__setitem__ key value self = (Ok tt, self') /\
    (LruDict.items self').*1 = (LruDict.items self).*1 /\
    LruDict.od_lookup key (LruDict.items self') = Some value /\
    (forall k, k <> key ->
       LruDict.od_lookup k (LruDict.items self')
       = LruDict.od_lookup k (LruDict.items self)).
Proof.
  intros Hr Hc. destruct (reachable_inv kw self Hr) as (Hpos & Hmc & Hnd & Hlen).
  destruct self as [l mc]. cbn [LruDict.items LruDict.max_cache] in *.
  unfold LruDict.__contains__ in Hc. cbn [LruDict.items] in Hc.
  apply bool_decide_eq_true_1, od_lookup_is_Some in Hc.
  destruct (od_assign_present key value l Hc) as [Hkeys Hsame].
  eexists. split; [apply setitem_general; exact Hpos |].
  cbn [LruDict.items]. rewrite cull_keep_id by (rewrite Hsame; exact Hlen).
  split; [exact Hkeys |]. split; [apply od_lookup_assign |].
  intros k Hk. clear - Hk. induction l as [| [k0 v0] l IH]; cbn.
  - rewrite decide_False by congruence. reflexivity.
  - destruct (decide (k0 = key)) as [-> | Hne]; cbn.
    + rewrite !decide_False by congruence. reflexivity.
    + rewrite IH. reflexivity.
Qed.

Lemma setitem_overwrite_keeps_order_witness :
  exists self' : LruDict.t string Z,
    LruDict.__setitem__ "a" 9 (LruDict.Self [("a", 1); ("b", 2)] 2) = (Ok tt, self') /\
    (LruDict.items self').*1 = ["a"; "b"] /\
    LruDict.od_lookup "a" (LruDict.items self') = Some 9 /\
    (forall k, k <> "a" ->
       LruDict.od_lookup k (LruDict.items self')
       = LruDict.od_lookup k [("a", 1); ("b", 2)]).
Proof.
  apply (setitem_overwrite_keeps_order (Some 2)
           (LruDict.Self [("a", 1); ("b", 2)] 2) "a" 9).
  - eapply (LruDict.reach_set _ _ "b" 2).
    + eapply (LruDict.reach_set _ _ "a" 1).
      * apply LruDict.reach_init. reflexivity.
      * reflexivity.
    + reflexivity.
  - reflexivity.
Defined.

(** X12: a new dictionary with a positive [max_cache] that is given
    entries with distinct keys keeps the last [max_cache] of them, in the
    order written: entries leave in the order they came. *)
Theorem put_all_keeps_last_entries {K V : Type} `{EqDecision K}
    (cap : Z) (kvs : list (K * V)) :
  0 < cap ->
  NoDup kvs.*1 ->
  exists s0 : LruDict.t K V,
    LruDict.__init__ (Some cap) = Ok s0 /\
    LruDict.put_all kvs s0
    = (Ok tt, LruDict.Self (drop (length kvs - Z.to_nat cap) kvs) cap).
Proof.
  intros Hcap Hnd. exists (LruDict.Self [] cap). split.
  - unfold LruDict.__init__. change (default 128 (Some cap)) with cap.
    rewrite cull_positive by assumption. reflexivity.
  - apply (put_all_bounded kvs [] cap Hcap); [cbn; lia | exact Hnd].
Qed.

Lemma put_all_keeps_last_entries_witness :
  exists s0 : LruDict.t Z Z,
    LruDict.__init__ (Some 3) = Ok s0 /\
    LruDict.put_all (numbered 10) s0
    = (Ok tt, LruDict.Self (drop (length (numbered 10) - Z.to_nat 3) (numbered 10)) 3).
Proof.
  apply (put_all_keeps_last_entries 3 (numbered 10)).
  - lia.
  - apply (bool_decide_unpack (NoDup (numbered 10).*1)). vm_compute. exact I.
Defined.

(** ** Texts as lists of characters *)

Section Texts.

Lemma chars_append (s1 s2 : string) :
  list_ascii_of_string (s1 +:+ s2)
  = list_ascii_of_string s1 ++ list_ascii_of_string s2.
Proof.
  induction s1 as [| c s1 IH]; [reflexivity |].
  change (String c s1 +:+ s2) with (String c (s1 +:+ s2)).
  cbn [list_ascii_of_string app]. f_equal. exact IH.
Qed.

Lemma chars_length (s : string) :
  length (list_ascii_of_string s) = String.length s.
Proof. induction s as [| c s IH]; cbn; [reflexivity | f_equal; exact IH]. Qed.

Lemma chars_substring (a n : nat) (s : string) :
  list_ascii_of_string (String.substring a n s)
  = take n (drop a (list_ascii_of_string s)).
Proof.
  revert a n. induction s as [| c s IH]; intros a n.
  - destruct a, n; reflexivity.
  - destruct a as [| a].
    + destruct n as [| n]; cbn; [reflexivity |]. f_equal. apply (IH 0%nat n).
    + cbn. apply IH.
Qed.

Lemma chars_inj (s1 s2 : string) :
  list_ascii_of_string s1 = list_ascii_of_string s2 -> s1 = s2.
Proof.
  intros Heq. rewrite <- (string_of_list_ascii_of_string s1),
    <- (string_of_list_ascii_of_string s2), Heq. reflexivity.
Qed.

Lemma append_assoc (s1 s2 s3 : string) :
  (s1 +:+ s2) +:+ s3 = s1 +:+ (s2 +:+ s3).
Proof. apply chars_inj. rewrite !chars_append. apply eq_sym, app_assoc. Qed.

Lemma append_empty_r (s : string) : s +:+ "" = s.
Proof. apply chars_inj. rewrite chars_append. apply app_nil_r. Qed.

Lemma length_append (s1 s2 : string) :
  String.length (s1 +:+ s2) = (String.length s1 + String.length s2)%nat.
Proof. rewrite <- !chars_length, chars_append, length_app. reflexivity. Qed.

(** A slice with bounds that are not negative, as [take] and [drop]. *)
Lemma chars_slice (seq : string) (pos n : Z) :
  0 <= pos -> 0 <= n ->
  list_ascii_of_string (slice seq pos (pos + n))
  = take (Z.to_nat n) (drop (Z.to_nat pos) (list_ascii_of_string seq)).
Proof.
  intros Hpos Hn. unfold slice. cbv zeta.
  destruct (Z.ltb_spec pos 0); [lia |].
  destruct (Z.ltb_spec (pos + n) 0); [lia |].
  rewrite chars_substring. rewrite <- chars_length.
  set (L := list_ascii_of_string seq).
  destruct (Z.le_gt_cases pos (Z.of_nat (length L))) as [Hin | Hout].
  - rewrite (Z.min_l pos) by lia.
    destruct (Z.le_gt_cases (pos + n) (Z.of_nat (length L))) as [Hin' | Hout'].
    + rewrite Z.min_l by lia. f_equal. lia.
    + rewrite Z.min_r by lia.
      rewrite (take_ge _ (Z.to_nat n)) by (rewrite length_drop; lia).
      apply take_ge. rewrite length_drop. lia.
  - rewrite !Z.min_r by lia. rewrite Z.sub_diag. cbn [Z.to_nat take].
    rewrite (drop_ge L (Z.to_nat pos)) by lia. rewrite take_nil. reflexivity.
Qed.

Lemma slice_adjacent (seq : string) (pos n m : Z) :
  0 <= pos -> 0 <= n -> 0 <= m ->
  slice seq pos (pos + n) +:+ slice seq (pos + n) (pos + n + m)
  = slice seq pos (pos + (n + m)).
Proof.
  intros Hpos Hn Hm. apply chars_inj.
  rewrite chars_append, !chars_slice by lia.
  replace (Z.to_nat (pos + n)) with (Z.to_nat pos + Z.to_nat n)%nat by lia.
  rewrite <- drop_drop, take_take_drop. f_equal. lia.
Qed.

Lemma slice_length (seq : string) (pos n : Z) :
  0 <= pos -> 0 <= n -> pos + n <= Z.of_nat (String.length seq) ->
  Z.of_nat (String.length (slice seq pos (pos + n))) = n.
Proof.
  intros Hpos Hn Hle. rewrite <- chars_length, chars_slice by assumption.
  rewrite length_take, length_drop, chars_length. lia.
Qed.

Lemma slice_whole (seq : string) :
  slice seq 0 (Z.of_nat (String.length seq)) = seq.
Proof.
  apply chars_inj.
  pose proof (chars_slice seq 0 (Z.of_nat (String.length seq))
                ltac:(lia) ltac:(lia)) as Hs.
  rewrite Z.add_0_l in Hs. rewrite Hs.
  cbn [Z.to_nat drop]. apply take_ge. rewrite chars_length. lia.
Qed.

End Texts.

(** ** [cigar_changes]: further properties *)

Section CigarChanges.

Lemma cigar_changes_loop_match (seq : string) (cigar : list (op_value * Z))
    (ref : string) (pos : Z) :
  0 <= pos -> Forall match_op cigar ->
  0 <= copied_span cigar /\
  cigar_changes_loop seq cigar ref pos
  = Ok (ref +:+ slice seq pos (pos + copied_span cigar)).
Proof.
  intros Hpos Hall. revert ref pos Hpos.
  induction Hall as [| [op n] cigar [Hop Hn] _ IH]; intros ref pos Hpos.
  - cbn. split; [lia |]. rewrite Z.add_0_r.
    replace (slice seq pos pos) with "".
    + rewrite append_empty_r. reflexivity.
    + apply chars_inj. rewrite <- (Z.add_0_r pos) at 2.
      rewrite chars_slice by lia. reflexivity.
  - cbn [fst snd] in Hop, Hn. cbn [cigar_changes_loop copied_span foldr fst snd].
    fold (copied_span cigar). rewrite Hop.
    destruct (IH (ref +:+ slice seq pos (pos + n)) (pos + n) ltac:(lia)) as [Hc Hloop].
    split; [lia |]. rewrite Hloop, append_assoc, slice_adjacent by lia.
    reflexivity.
Qed.

Lemma cigar_changes_loop_supported (seq : string) (cigar : list (op_value * Z))
    (ref : string) (pos : Z) :
  0 <= pos -> Forall supported_op cigar ->
  0 <= copied_span cigar <= query_span cigar /\
  exists out,
    cigar_changes_loop seq cigar ref pos = Ok (ref +:+ out) /\
    (pos + query_span cigar <= Z.of_nat (String.length seq) ->
     Z.of_nat (String.length out) = copied_span cigar).
Proof.
  intros Hpos Hall. revert ref pos Hpos.
  induction Hall as [| [op n] cigar [Hop Hn] _ IH]; intros ref pos Hpos.
  - cbn. split; [lia |]. exists "". rewrite append_empty_r. auto.
  - cbn [fst snd] in Hop, Hn.
    cbn [cigar_changes_loop copied_span query_span foldr fst snd].
    fold (copied_span cigar). fold (query_span cigar).
    destruct op as [id | name id]; [| discriminate Hop].
    unfold op_in in *. cbn [existsb op_eq] in *.
    destruct (Z.eqb_spec id 0); [| destruct (Z.eqb_spec id 7);
      [| destruct (Z.eqb_spec id 8); [| destruct (Z.eqb_spec id 1);
        [| destruct (Z.eqb_spec id 4); [| destruct (Z.eqb_spec id 5);
          [| cbn in Hop; discriminate Hop]]]]]]; subst id; cbn.
    1-3: destruct (IH (ref +:+ slice seq pos (pos + n)) (pos + n) ltac:(lia))
           as [Hc (out & Hloop & Hlen)];
         (split; [lia |]);
         exists (slice seq pos (pos + n) +:+ out);
         (split; [rewrite Hloop, append_assoc; reflexivity |]);
         intros Hfit; rewrite length_append, Nat2Z.inj_add, slice_length by lia;
         rewrite Hlen by lia; reflexivity.
    1-2: destruct (IH ref (pos + n) ltac:(lia)) as [Hc (out & Hloop & Hlen)];
         (split; [lia |]); exists out; (split; [exact Hloop |]);
         intros Hfit; apply Hlen; lia.
    destruct (IH ref pos Hpos) as [Hc (out & Hloop & Hlen)].
    split; [lia |]. exists out. split; [exact Hloop |]. exact Hlen.
Qed.

End CigarChanges.

(** X13: for a list made of Match, Equal and Diff operations (ids 0, 7
    and 8) with lengths that are not negative, [cigar_changes] returns the
    first bases of the read, as many as the lengths add up to; when they
    add up to the length of the read it returns the read. *)
Theorem cigar_changes_match_only (seq : string) (cigar : list (op_value * Z)) :
  Forall match_op cigar ->
  cigar_changes seq (CigarList cigar) = Ok (slice seq 0 (copied_span cigar)) /\
  (copied_span cigar = Z.of_nat (String.length seq) ->
   cigar_changes seq (CigarList cigar) = Ok seq).
Proof.
  intros Hall.
  destruct (cigar_changes_loop_match seq cigar "" 0 ltac:(lia) Hall) as [_ Hloop].
  unfold cigar_changes. cbn [result_bind]. rewrite Hloop. cbn.
  split; [reflexivity |]. intros ->. rewrite slice_whole. reflexivity.
Qed.

Lemma cigar_changes_match_only_witness :
  cigar_changes "ACGTAC" (CigarList [(OpId 0, 2); (OpId 8, 1); (OpId 7, 3)])
  = Ok (slice "ACGTAC" 0 (copied_span [(OpId 0, 2); (OpId 8, 1); (OpId 7, 3)])) /\
  (copied_span [(OpId 0, 2); (OpId 8, 1); (OpId 7, 3)]
   = Z.of_nat (String.length "ACGTAC") ->
   cigar_changes "ACGTAC" (CigarList [(OpId 0, 2); (OpId 8, 1); (OpId 7, 3)])
   = Ok "ACGTAC").
Proof.
  apply (cigar_changes_match_only "ACGTAC" [(OpId 0, 2); (OpId 8, 1); (OpId 7, 3)]).
  repeat constructor; cbn; lia.
Defined.

(** X14: for a list of operations that [cigar_changes] has a branch for
    (ids 0, 1, 4, 5, 7 and 8) with lengths that are not negative, the
    call returns a text; when the read is long enough for the operations
    that walk over it, the text has one base for each base that a Match,
    Equal or Diff operation covers. *)
Theorem cigar_changes_supported_length (seq : string) (cigar : list (op_value * Z)) :
  Forall supported_op cigar ->
  exists out,
    cigar_changes seq (CigarList cigar) = Ok out /\
    (query_span cigar <= Z.of_nat (String.length seq) ->
     Z.of_nat (String.length out) = copied_span cigar).
Proof.
  intros Hall.
  destruct (cigar_changes_loop_supported seq cigar "" 0 ltac:(lia) Hall)
    as [_ (out & Hloop & Hlen)].
  exists out. unfold cigar_changes. cbn [result_bind]. rewrite Hloop. cbn.
  split; [reflexivity |]. intros Hfit. apply Hlen. lia.
Qed.

Lemma cigar_changes_supported_length_witness :
  exists out,
    cigar_changes "ACGTGGAC"
      (CigarList [(OpId 4, 1); (OpId 0, 3); (OpId 1, 2); (OpId 5, 7); (OpId 7, 2)])
    = Ok out /\
    (query_span [(OpId 4, 1); (OpId 0, 3); (OpId 1, 2); (OpId 5, 7); (OpId 7, 2)]
     <= Z.of_nat (String.length "ACGTGGAC") ->
     Z.of_nat (String.length out)
     = copied_span [(OpId 4, 1); (OpId 0, 3); (OpId 1, 2); (OpId 5, 7); (OpId 7, 2)]).
Proof.
  apply (cigar_changes_supported_length "ACGTGGAC"
           [(OpId 4, 1); (OpId 0, 3); (OpId 1, 2); (OpId 5, 7); (OpId 7, 2)]).
  repeat constructor; cbn; lia.
Defined.

(** ** [parse_cigar]: further properties *)

Section ParseCigar.

Lemma greedy_more_split {A} (p : ascii -> bool) (s : list ascii)
    (g : Re.groups) (k : Re.cont A) (x : A) :
  Re.greedy_more p s g k = Some x ->
  exists pre s1,
    s = pre ++ s1 /\ Forall (fun c => p c = true) pre /\ k s1 g = Some x.
Proof.
  induction s as [| c s IH]; cbn.
  - intros Hk. exists [], []. auto.
  - destruct (p c) eqn:Hc.
    + destruct (Re.greedy_more p s g k) as [y |] eqn:Hy.
      * intros [= <-]. destruct (IH eq_refl) as (pre & s1 & -> & Hpre & Hk).
        exists (c :: pre), s1. auto.
      * intros Hk. exists [], (c :: s). auto.
    + intros Hk. exists [], (c :: s). auto.
Qed.

(** When what follows accepts the text after the whole run, the greedy
    repetition takes the whole run. *)
Lemma greedy_more_all {A} (p : ascii -> bool) (pre rest : list ascii)
    (g : Re.groups) (k : Re.cont A) (x : A) :
  Forall (fun c => p c = true) pre ->
  match rest with [] => True | c :: _ => p c = false end ->
  k rest g = Some x ->
  Re.greedy_more p (pre ++ rest) g k = Some x.
Proof.
  intros Hpre Hrest Hk. induction Hpre as [| c pre Hc _ IH]; cbn.
  - destruct rest as [| c rest]; cbn; [exact Hk |]. rewrite Hrest. exact Hk.
  - rewrite Hc, IH. reflexivity.
Qed.

Lemma take_prefix {A} (pre suf : list A) :
  take (length (pre ++ suf) - length suf) (pre ++ suf) = pre.
Proof. apply take_app_length'. rewrite length_app. lia. Qed.

Lemma finditer_from_skip (r : Re.pattern) (pre rest : list ascii) :
  Re.finditer_from r (length pre) (pre ++ rest) = Re.finditer_from r 0 rest.
Proof. induction pre as [| c pre IH]; [reflexivity | exact IH]. Qed.

Lemma finditer_from_match (r : Re.pattern) (c : ascii) (pre rest : list ascii)
    (m : Re.match_object) :
  Re.match_at r (c :: pre ++ rest) = Some m ->
  Re.span m = S (length pre) ->
  Re.finditer_from r 0 (c :: pre ++ rest) = m :: Re.finditer_from r 0 rest.
Proof.
  intros Hm Hspan. cbn [Re.finditer_from]. rewrite Hm, Hspan.
  replace (S (length pre) - 1)%nat with (length pre) by lia.
  rewrite finditer_from_skip. reflexivity.
Qed.

Lemma word_not_equal_sign (c : ascii) : Re.word c = true -> c <> "="%char.
Proof. intros Hw ->. vm_compute in Hw. discriminate Hw. Qed.

Lemma table_word_key (c : ascii) (name : string) (id : Z) :
  Re.word c = true ->
  dict_get _CIGAR_OPS (String c "") = Some (name, id) ->
  Re.digit c = false /\ id <> 7.
Proof.
  destruct c as [[] [] [] [] [] [] [] []]; vm_compute;
    intros Hw Hd; try discriminate Hw; try discriminate Hd;
    (split; [reflexivity |]); injection Hd as _ <-; discriminate.
Qed.

(** The match that starts at a token. *)
Lemma cigar_match_token (d0 : ascii) (d' rest : list ascii) (c : ascii) :
  Forall (fun x => Re.digit x = true) (d0 :: d') ->
  Re.word c = true -> Re.digit c = false ->
  Re.match_at cigar_re ((d0 :: d') ++ c :: rest)
  = Some (Re.Match (S (length ((d0 :: d') ++ [c])) - 1)
            [("op", String c ""); ("n_op", string_of_list_ascii (d0 :: d'))]).
Proof.
  intros Hd Hw Hnd. inversion Hd as [| ? ? Hd0 Hd']; subst.
  unfold Re.match_at, cigar_re. cbn [Re.run app]. rewrite Hd0.
  erewrite greedy_more_all; [reflexivity | exact Hd' | exact Hnd |].
  cbn [Re.run]. rewrite Hw.
  change (d0 :: d' ++ c :: rest) with ((d0 :: d') ++ c :: rest).
  rewrite take_prefix.
  change (c :: rest) with ([c] ++ rest). rewrite take_prefix.
  f_equal. f_equal.
  cbn [length app]. rewrite !length_app. cbn [length]. lia.
Qed.

Lemma int_digits_nonneg (d : list ascii) :
  Forall (fun c => Re.digit c = true) d -> 0 <= int (string_of_list_ascii d).
Proof.
  intros Hd. unfold int. rewrite list_ascii_of_string_of_list_ascii.
  assert (Hacc : forall acc, 0 <= acc ->
            0 <= fold_left (fun acc c => 10 * acc + (Z.of_N (N_of_ascii c) - 48)) d acc).
  { induction Hd as [| c d Hc _ IH]; intros acc Hacc; cbn; [exact Hacc |].
    apply IH. unfold Re.digit, Re.in_range in Hc.
    apply andb_prop in Hc. destruct Hc as [Hlo _].
    apply N.leb_le in Hlo. change (N_of_ascii "0") with 48%N in Hlo. lia. }
  apply Hacc. lia.
Qed.

(** What a match of the CIGAR pattern holds: a run of digits and one
    word character. *)
Lemma cigar_match_texts (s : list ascii) (m : Re.match_object) :
  Re.match_at cigar_re s = Some m ->
  exists d c,
    Forall (fun x => Re.digit x = true) d /\ Re.word c = true /\
    Re.groupdict m = [("op", String c ""); ("n_op", string_of_list_ascii d)].
Proof.
  unfold Re.match_at, cigar_re. cbn [Re.run].
  destruct s as [| d0 s]; [discriminate |].
  destruct (Re.digit d0) eqn:Hd0; [| discriminate].
  intros Hm. apply greedy_more_split in Hm.
  destruct Hm as (pre & s1 & -> & Hpre & Hm).
  destruct s1 as [| c s1]; [discriminate |].
  destruct (Re.word c) eqn:Hw; [| discriminate].
  injection Hm as <-. exists (d0 :: pre), c.
  split; [constructor; assumption |]. split; [exact Hw |].
  cbn [Re.groupdict].
  change (d0 :: pre ++ c :: s1) with ((d0 :: pre) ++ c :: s1).
  change (String c "") with (string_of_list_ascii [c]).
  apply (f_equal2 (fun a b => [("op", string_of_list_ascii a);
                               ("n_op", string_of_list_ascii b)])).
  - apply (take_app_length' [c] s1). cbn [length]. lia.
  - apply (take_app_length' (d0 :: pre) (c :: s1)).
    rewrite ?length_app. cbn [length]. lia.
Qed.

Lemma cigar_entry_parsed (s : list ascii) (m : Re.match_object)
    (entry : op_value * Z) :
  Re.match_at cigar_re s = Some m -> cigar_entry m = Ok entry ->
  parsed_entry entry.
Proof.
  intros Hm Hentry. destruct (cigar_match_texts s m Hm) as (d & c & Hd & Hw & Hg).
  revert Hentry. unfold cigar_entry, group_text, Re.group. rewrite Hg.
  change (Re.lookup_group "n_op"
            [("op", String c ""); ("n_op", string_of_list_ascii d)])
    with (Some (string_of_list_ascii d)).
  change (Re.lookup_group "op"
            [("op", String c ""); ("n_op", string_of_list_ascii d)])
    with (Some (String c "")).
  cbn [result_bind].
  destruct (dict_get _CIGAR_OPS (String c "")) as [[name id] |] eqn:Hdict;
    [| discriminate].
  intros [= <-]. split; [apply int_digits_nonneg, Hd |].
  exists (String c ""), name, id. split; [exact Hdict |]. split; [reflexivity |].
  eapply table_word_key; eassumption.
Qed.

Lemma parse_cigar_loop_Forall (P : op_value * Z -> Prop)
    (ms : list Re.match_object) (acc cigar : list (op_value * Z)) :
  Forall (fun m => forall entry, cigar_entry m = Ok entry -> P entry) ms ->
  Forall P acc ->
  parse_cigar_loop ms acc = Ok cigar -> Forall P cigar.
Proof.
  intros Hms. revert acc.
  induction Hms as [| m ms Hm _ IH]; intros acc Hacc; cbn [parse_cigar_loop].
  - intros [= <-]. exact Hacc.
  - destruct (cigar_entry m) as [entry |] eqn:Hentry; cbn [result_bind];
      [| discriminate].
    apply IH. apply Forall_app. split; [exact Hacc |].
    constructor; [apply Hm; reflexivity | constructor].
Qed.

Lemma cigar_entry_of_groups (span : nat) (op n_op : string) :
  cigar_entry (Re.Match span [("op", op); ("n_op", n_op)])
  = match dict_get _CIGAR_OPS op with
    | Some (name, id) => Ok (OpTuple name id, int n_op)
    | None => Err (KeyError op)
    end.
Proof. reflexivity. Qed.

Lemma parse_cigar_loop_tokens (tokens : list (list ascii * ascii))
    (entries acc : list (op_value * Z)) :
  Forall2 cigar_token_entry tokens entries ->
  parse_cigar_loop (Re.finditer_from cigar_re 0 (cigar_text tokens)) acc
  = Ok (acc ++ entries).
Proof.
  intros Hall. revert acc.
  induction Hall as [| [d c] entry tokens entries Htok _ IH]; intros acc.
  - cbn. rewrite app_nil_r. reflexivity.
  - destruct Htok as (Hne & Hd & Hw & name & id & Hdict & ->).
    cbn [fst snd] in *. cbn [cigar_text].
    destruct d as [| d0 d']; [congruence |].
    destruct (table_word_key c name id Hw Hdict) as [Hnd _].
    pose proof (cigar_match_token d0 d' (cigar_text tokens) c Hd Hw Hnd) as Hm.
    replace ((d0 :: d') ++ c :: cigar_text tokens)
      with (d0 :: (d' ++ [c]) ++ cigar_text tokens) in *
      by (cbn; rewrite <- app_assoc; reflexivity).
    erewrite finditer_from_match; [| exact Hm |].
    + cbn [parse_cigar_loop]. rewrite cigar_entry_of_groups, Hdict.
      cbn [result_bind]. rewrite IH, <- app_assoc. reflexivity.
    + cbn [Re.span]. rewrite !length_app. cbn [length]. lia.
Qed.

End ParseCigar.

(** X15: a text that is a row of tokens, each a run of digits followed by
    a character that is a key of [_CIGAR_OPS] and a word character,
    parses into one entry for each token, in the order of the text: the
    tuple stored under the character, and the digits read in base ten. *)
Theorem parse_cigar_tokens (tokens : list (list ascii * ascii))
    (entries : list (op_value * Z)) :
  Forall2 cigar_token_entry tokens entries ->
  parse_cigar (string_of_list_ascii (cigar_text tokens)) = Ok entries.
Proof.
  intros Hall. unfold parse_cigar, Re.finditer.
  rewrite list_ascii_of_string_of_list_ascii.
  apply (parse_cigar_loop_tokens tokens entries []). exact Hall.
Qed.

Lemma parse_cigar_tokens_witness :
  parse_cigar
    (string_of_list_ascii
       (cigar_text [(list_ascii_of_string "10", "M"%char);
                    (list_ascii_of_string "5", "I"%char);
                    (list_ascii_of_string "3", "D"%char)]))
  = Ok [(OpTuple "BAM_CMATCH" 0, int "10"); (OpTuple "BAM_CINS" 1, int "5");
        (OpTuple "BAM_CDEL" 2, int "3")].
Proof.
  apply (parse_cigar_tokens
           [(list_ascii_of_string "10", "M"%char);
            (list_ascii_of_string "5", "I"%char);
            (list_ascii_of_string "3", "D"%char)]).
  repeat constructor; cbn; try discriminate; eauto.
Defined.

(** X16: every entry that [parse_cigar] returns holds a tuple of
    [_CIGAR_OPS] and a length that is not negative, and none holds the
    Equal operation (id 7): [=] is no word character, so the scan never
    takes it for the character of a token. *)
Theorem parse_cigar_entries (cigar_str : string) (cigar : list (op_value * Z)) :
  parse_cigar cigar_str = Ok cigar -> Forall parsed_entry cigar.
Proof.
  unfold parse_cigar, Re.finditer. intros Hparse.
  eapply parse_cigar_loop_Forall; [| constructor | exact Hparse].
  apply finditer_from_Forall. intros s m Hm entry Hentry.
  eapply cigar_entry_parsed; eassumption.
Qed.

Lemma parse_cigar_entries_witness :
  Forall parsed_entry
    [(OpTuple "BAM_CMATCH" 0, 10); (OpTuple "BAM_CDIFF" 8, 2)].
Proof. apply (parse_cigar_entries "10M2X"). reflexivity. Defined.

(** ** [md_changes]: further properties *)

Section MdChanges.

Lemma word_not_caret (c : ascii) : Re.word c = true -> Re.caret c = false.
Proof.
  destruct c as [[] [] [] [] [] [] [] []]; vm_compute; intros Hw;
    try discriminate Hw; reflexivity.
Qed.

(** After a run the text goes on with a character that is no digit. *)
Lemma md_text_after_run (tokens : list md_token) :
  md_tokens_ok true tokens ->
  match md_text tokens with
  | [] => True
  | c :: _ => Re.digit c = false
  end.
Proof.
  destruct tokens as [| [digits | base | base] tokens]; cbn.
  - auto.
  - intros [Hf _]. discriminate Hf.
  - intros (_ & Hd & _). exact Hd.
  - intros _. reflexivity.
Qed.

Lemma md_match_run (d0 : ascii) (d' rest : list ascii) :
  Forall (fun x => Re.digit x = true) (d0 :: d') ->
  match rest with [] => True | c :: _ => Re.digit c = false end ->
  Re.match_at md_re (d0 :: d' ++ rest)
  = Some (Re.Match (S (length d'))
            [("matches", string_of_list_ascii (d0 :: d'))]).
Proof.
  intros Hd Hrest. inversion Hd as [| ? ? Hd0 Hd']; subst.
  unfold Re.match_at, md_re. cbn [Re.run]. rewrite Hd0.
  erewrite greedy_more_all; [reflexivity | exact Hd' | exact Hrest |].
  apply (f_equal2 (fun n txt => Some (Re.Match n [("matches", string_of_list_ascii txt)]))).
  - cbn [length]. rewrite length_app. lia.
  - apply (take_app_length' (d0 :: d') rest). cbn [length].
    rewrite length_app. lia.
Qed.

Lemma md_match_sub (c : ascii) (rest : list ascii) :
  Re.word c = true -> Re.digit c = false ->
  Re.match_at md_re (c :: rest) = Some (Re.Match 1 [("sub", String c "")]).
Proof.
  intros Hw Hd. unfold Re.match_at, md_re. cbn [Re.run].
  rewrite Hd, (word_not_caret c Hw), Hw.
  change (String c "") with (string_of_list_ascii [c]).
  apply (f_equal2 (fun n txt => Some (Re.Match n [("sub", string_of_list_ascii txt)]))).
  - cbn [length]. lia.
  - apply (take_app_length' [c] rest). cbn [length]. lia.
Qed.

Lemma md_match_del (c : ascii) (rest : list ascii) :
  Re.word c = true ->
  Re.match_at md_re ("^"%char :: c :: rest)
  = Some (Re.Match 2 [("del", String "^" (String c ""))]).
Proof.
  intros Hw. unfold Re.match_at, md_re. cbn [Re.run].
  change (Re.digit "^") with false. change (Re.caret "^") with true.
  cbv iota. rewrite Hw. destruct rest as [| c' rest]; cbn [Re.lazy_more].
  - reflexivity.
  - change (String "^" (String c "")) with (string_of_list_ascii ["^"%char; c]).
    apply (f_equal2 (fun n txt => Some (Re.Match n [("del", string_of_list_ascii txt)]))).
    + cbn [length]. lia.
    + apply (take_app_length' ["^"%char; c] (c' :: rest)). cbn [length]. lia.
Qed.

Lemma deletion_base (c : ascii) :
  slice (String "^" (String c "")) 1
        (Z.of_nat (String.length (String "^" (String c ""))))
  = String c "".
Proof. reflexivity. Qed.

Lemma md_changes_loop_tokens (seq : string) (tokens : list md_token)
    (after_run : bool) (ref_seq : string) (pos : Z) :
  md_tokens_ok after_run tokens ->
  md_changes_loop seq (Re.finditer_from md_re 0 (md_text tokens)) ref_seq pos
  = md_apply seq tokens ref_seq pos.
Proof.
  revert after_run ref_seq pos.
  induction tokens as [| [digits | base | base] tokens IH];
    intros after_run ref_seq pos Hok; cbn [md_text md_token_text md_apply].
  - reflexivity.
  - destruct Hok as (_ & Hne & Hd & Hok).
    destruct digits as [| d0 d']; [congruence |].
    pose proof (md_match_run d0 d' (md_text tokens) Hd (md_text_after_run _ Hok)) as Hm.
    change ((d0 :: d') ++ md_text tokens) with (d0 :: d' ++ md_text tokens).
    erewrite finditer_from_match; [| exact Hm | reflexivity].
    cbn [md_changes_loop]. change (Re.group _ "matches")
      with (Some (string_of_list_ascii (d0 :: d'))).
    cbv iota zeta. apply (IH true), Hok.
  - destruct Hok as (Hw & Hd & Hok).
    pose proof (md_match_sub base (md_text tokens) Hw Hd) as Hm.
    change ([base] ++ md_text tokens) with (base :: [] ++ md_text tokens) in *.
    erewrite finditer_from_match; [| exact Hm | reflexivity].
    cbn [md_changes_loop]. apply (IH false), Hok.
  - destruct Hok as (Hw & Hok).
    pose proof (md_match_del base (md_text tokens) Hw) as Hm.
    change (["^"%char; base] ++ md_text tokens)
      with ("^"%char :: [base] ++ md_text tokens) in *.
    erewrite finditer_from_match; [| exact Hm | reflexivity].
    cbn [md_changes_loop].
    change (Re.group _ "matches") with (@None string).
    change (Re.group _ "del") with (Some (String "^" (String base ""))).
    cbv iota beta. rewrite deletion_base. apply (IH false), Hok.
Qed.

End MdChanges.

(** X17: for a tag that is a row of match runs, substitutions and
    deletions of one base, [md_changes] does to the read what the tokens
    say: a run copies its bases, a substitution gives the base of the tag
    and passes one base of the read, a deletion gives its base and passes
    none. *)
Theorem md_changes_tokens (seq : string) (tokens : list md_token) :
  md_tokens_ok false tokens ->
  md_changes seq (string_of_list_ascii (md_text tokens))
  = md_apply seq tokens "" 0.
Proof.
  intros Hok. unfold md_changes, Re.finditer.
  rewrite list_ascii_of_string_of_list_ascii.
  apply (md_changes_loop_tokens seq tokens false). exact Hok.
Qed.

Lemma md_changes_tokens_witness :
  md_changes "ACGT"
    (string_of_list_ascii
       (md_text [MdMatch (list_ascii_of_string "2"); MdDel "N"; MdSub "C";
                 MdMatch (list_ascii_of_string "1")]))
  = md_apply "ACGT"
      [MdMatch (list_ascii_of_string "2"); MdDel "N"; MdSub "C";
       MdMatch (list_ascii_of_string "1")] "" 0.
Proof.
  apply (md_changes_tokens "ACGT"
           [MdMatch (list_ascii_of_string "2"); MdDel "N"; MdSub "C";
            MdMatch (list_ascii_of_string "1")]).
  cbn. repeat split; try discriminate; repeat constructor.
Defined.

(** ** Reads of the dictionary, and texts without tokens *)

Section Leftovers.
Context {K V : Type} `{EqDecision K}.

Lemma moved_Permutation (key : K) (l : list (K * V)) (v : V) :
  NoDup l.*1 -> LruDict.od_lookup key l = Some v ->
  LruDict.od_remove key l ++ [(key, v)] ≡ₚ l.
Proof.
  induction l as [| [k v0] l IH]; cbn [LruDict.od_lookup]; [discriminate |].
  intros Hnd Hl. cbn in Hnd. apply NoDup_cons in Hnd. destruct Hnd as [Hfresh Hnd].
  unfold LruDict.od_remove. destruct (decide (k = key)) as [-> | Hne].
  - injection Hl as ->. rewrite filter_cons_False by (cbn; tauto).
    fold (LruDict.od_remove key l). rewrite od_remove_id by assumption.
    symmetry. apply Permutation_cons_append.
  - rewrite filter_cons_True by (cbn; congruence).
    fold (LruDict.od_remove key l). cbn [app].
    apply Permutation_skip. apply IH; assumption.
Qed.

End Leftovers.

(** X18: on every dictionary a program can hold, a read raises nothing
    and neither adds nor drops an entry: the dictionary afterwards holds
    the same entries, in some order, under the same capacity. *)
Theorem getitem_keeps_entries {K V : Type} `{EqDecision K}
    (kw : option Z) (self : LruDict.t K V) (legacy : bool) (key : K) :
  LruDict.reachable kw self ->
  exists (r : option V) (self' : LruDict.t K V),
    LruDict.__getitem__ legacy key self = (Ok r, self') /\
    r = LruDict.od_lookup key (LruDict.items self) /\
    LruDict.items self' ≡ₚ LruDict.items self /\
    LruDict.max_cache self' = LruDict.max_cache self.
Proof.
  intros Hr. destruct (reachable_inv kw self Hr) as (Hpos & _ & Hnd & Hlen).
  destruct self as [l mc]. cbn [LruDict.items LruDict.max_cache] in *.
  destruct (LruDict.od_lookup key l) as [v |] eqn:Hl.
  - exists (Some v). eexists.
    split; [exact (getitem_hit legacy key l mc v Hpos Hnd Hlen Hl) |].
    cbn [LruDict.items LruDict.max_cache].
    split; [reflexivity |]. split; [| reflexivity].
    apply moved_Permutation; assumption.
  - exists None. eexists. split; [apply getitem_miss; exact Hl |].
    cbn [LruDict.items LruDict.max_cache]. auto.
Qed.

Lemma getitem_keeps_entries_witness :
  exists (r : option Z) (self' : LruDict.t string Z),
    LruDict.__getitem__ true "a" (LruDict.Self [("a", 1); ("b", 2)] 2) = (Ok r, self') /\
    r = LruDict.od_lookup "a" [("a", 1); ("b", 2)] /\
    LruDict.items self' ≡ₚ [("a", 1); ("b", 2)] /\
    LruDict.max_cache self' = 2.
Proof.
  apply (getitem_keeps_entries (Some 2)
           (LruDict.Self [("a", 1); ("b", 2)] 2) true "a").
  eapply (LruDict.reach_set _ _ "b" 2).
  - eapply (LruDict.reach_set _ _ "a" 1).
    + apply LruDict.reach_init. reflexivity.
    + reflexivity.
  - reflexivity.
Defined.

Section NoTokens.

Lemma finditer_from_no_match (r : Re.pattern) (P : ascii -> Prop)
    (s : list ascii) (skip : nat) :
  (forall c rest, P c -> Forall P rest -> Re.match_at r (c :: rest) = None) ->
  Forall P s -> Re.finditer_from r skip s = [].
Proof.
  intros Hnone Hall. revert skip.
  induction Hall as [| c s Hc Hs IH]; intros skip; cbn [Re.finditer_from];
    [reflexivity |].
  destruct skip as [| n]; [| apply IH].
  rewrite (Hnone c s Hc Hs). apply IH.
Qed.

Lemma not_word_not_digit (c : ascii) : Re.word c = false -> Re.digit c = false.
Proof.
  unfold Re.word. destruct (Re.digit c); [| reflexivity].
  rewrite orb_true_r. cbn. discriminate.
Qed.

End NoTokens.

(** X19: a CIGAR text without any digit holds no token: [parse_cigar]
    returns the empty list and [cigar_changes] the empty text, whatever
    the read and whatever else the text holds; the empty text is such a
    text. *)
Theorem parse_cigar_without_digits (seq cigar_str : string) :
  Forall (fun c => Re.digit c = false) (list_ascii_of_string cigar_str) ->
  parse_cigar cigar_str = Ok [] /\
  cigar_changes seq (CigarStr cigar_str) = Ok "".
Proof.
  intros Hall.
  assert (Hp : parse_cigar cigar_str = Ok []).
  { unfold parse_cigar, Re.finditer.
    rewrite (finditer_from_no_match cigar_re (fun c => Re.digit c = false));
      [reflexivity | | exact Hall].
    intros c rest Hc _. unfold Re.match_at, cigar_re. cbn [Re.run].
    rewrite Hc. reflexivity. }
  split; [exact Hp |]. unfold cigar_changes. rewrite Hp. reflexivity.
Qed.

Lemma parse_cigar_without_digits_witness :
  parse_cigar "MID=" = Ok [] /\ cigar_changes "ACGT" (CigarStr "MID=") = Ok "".
Proof.
  apply (parse_cigar_without_digits "ACGT" "MID=").
  repeat constructor.
Defined.

(** X20: an MD tag without any word character holds no token:
    [md_changes] passes over all of it and returns the empty text. *)
Theorem md_changes_without_word_characters (seq md_tag : string) :
  Forall (fun c => Re.word c = false) (list_ascii_of_string md_tag) ->
  md_changes seq md_tag = "".
Proof.
  intros Hall. unfold md_changes, Re.finditer.
  rewrite (finditer_from_no_match md_re (fun c => Re.word c = false));
    [reflexivity | | exact Hall].
  intros c rest Hc Hrest. unfold Re.match_at, md_re. cbn [Re.run].
  rewrite (not_word_not_digit c Hc), Hc.
  destruct (Re.caret c); [| reflexivity].
  destruct Hrest as [| c' rest Hc' _]; [reflexivity |].
  rewrite Hc'. reflexivity.
Qed.

Lemma md_changes_without_word_characters_witness :
  md_changes "ACGT" "^^-*" = "".
Proof.
  apply (md_changes_without_word_characters "ACGT" "^^-*").
  repeat constructor.
Defined.

(** X21: a list whose operations have a branch up to one that has none
    makes [cigar_changes] raise, whatever comes after it and however much
    had been put together: an id outside 0, 1, 3, 4, 5, 7 and 8, or a
    tuple, raises [ValueError], and the id 3 stops the call with an
    [UnboundLocalError]. *)
Theorem cigar_changes_stops_at_other_op (seq : string)
    (before after : list (op_value * Z)) (op : op_value) (n_ops : Z) :
  Forall supported_op before ->
  op_in op [0; 1; 4; 5; 7; 8] = false ->
  cigar_changes seq (CigarList (before ++ (op, n_ops) :: after))
  = if op_eq op 3 then Err (UnboundLocalError "tmp_ref_seq")
    else Err (ValueError "Invalid CIGAR string").
Proof.
  intros Hbefore Hop. unfold cigar_changes. cbn [result_bind].
  generalize "" at 1 as ref. generalize 0 as pos.
  induction Hbefore as [| [op' n'] before [Hop' _] _ IH]; intros pos ref.
  - cbn [app cigar_changes_loop].
    unfold op_in in *. cbn [existsb] in *.
    destruct (op_eq op 0), (op_eq op 1), (op_eq op 4), (op_eq op 5),
      (op_eq op 7), (op_eq op 8); try discriminate Hop.
    cbn. destruct (op_eq op 3); reflexivity.
  - cbn [app cigar_changes_loop fst] in *.
    destruct op' as [id | name id]; [| discriminate Hop'].
    unfold op_in in Hop' |- *. cbn [existsb op_eq] in Hop' |- *.
    destruct (Z.eqb_spec id 0); [subst; cbn; apply IH |].
    destruct (Z.eqb_spec id 7); [subst; cbn; apply IH |].
    destruct (Z.eqb_spec id 8); [subst; cbn; apply IH |].
    destruct (Z.eqb_spec id 1); [subst; cbn; apply IH |].
    destruct (Z.eqb_spec id 4); [subst; cbn; apply IH |].
    destruct (Z.eqb_spec id 5); [subst; cbn; apply IH |].
    cbn in Hop'. discriminate Hop'.
Qed.

Lemma cigar_changes_stops_at_other_op_witness :
  cigar_changes "ACGT"
    (CigarList ([(OpId 0, 2); (OpId 1, 1)] ++ (OpId 2, 5) :: [(OpId 0, 1)]))
  = if op_eq (OpId 2) 3 then Err (UnboundLocalError "tmp_ref_seq")
    else Err (ValueError "Invalid CIGAR string").
Proof.
  apply (cigar_changes_stops_at_other_op "ACGT"
           [(OpId 0, 2); (OpId 1, 1)] [(OpId 0, 1)] (OpId 2) 5).
  - repeat constructor; cbn; lia.
  - reflexivity.
Defined.
